(** * oraker: asset versioning and the capture loop of [src/main.cpp]

    A shallow embedding of the index resolvers ([findLastVersionIndex],
    [findLastVersionDirectory], [findLastImageIndex]), of the start-up
    sequence and of the polling loop of [main], with the library calls
    they rely on ([std::stoi], [std::to_string], [std::regex_match],
    [std::ranges::max], [std::filesystem]) modelled next to them. *)

From Stdlib Require Import ZArith List Bool Ascii String Lia Permutation.
Import ListNotations.
Local Open Scope string_scope.
Local Open Scope Z_scope.

(* ================================================================== *)
(** ** Outcomes of a C++ call *)

(** The exceptions the modelled code can raise. *)
Inductive exn : Type :=
| out_of_range        (* std::out_of_range: stoi, substr *)
| invalid_argument    (* std::invalid_argument: stoi *)
| filesystem_error    (* std::filesystem::filesystem_error *)
| runtime_error.      (* std::runtime_error: findSafariPID *)

(** A call returns a value, leaves through an exception, or has no
    behaviour defined by the language (a violated library precondition). *)
Inductive result (A : Type) : Type :=
| Returned (a : A)
| Thrown (e : exn)
| Undefined.

Arguments Returned {A} a.
Arguments Thrown {A} e.
Arguments Undefined {A}.

Definition bind {A B : Type} (m : result A) (k : A -> result B) : result B :=
  match m with
  | Returned a => k a
  | Thrown e => Thrown e
  | Undefined => Undefined
  end.

Notation "x <- m ;; k" := (bind m (fun x => k))
  (at level 61, m at next level, right associativity).

(* ================================================================== *)
(** ** Integers of the target (64-bit macOS) *)

Definition INT_MAX : Z := 2147483647.
Definition INT_MIN : Z := -2147483648.

(** [static_cast<std::size_t>] and arithmetic on [std::size_t]. *)
Definition size_t (z : Z) : Z := z mod 2 ^ 64.

(* ================================================================== *)
(** ** Characters and strings *)

Definition isdigit (c : ascii) : bool :=
  let n := Z.of_nat (nat_of_ascii c) in (48 <=? n) && (n <=? 57).

Definition digit_value (c : ascii) : Z := Z.of_nat (nat_of_ascii c) - 48.

Definition digit_char (d : Z) : ascii := ascii_of_nat (Z.to_nat (48 + d)).

(** [isspace] in the "C" locale: space, \t, \n, \v, \f, \r. *)
Definition isspace (c : ascii) : bool :=
  let n := Z.of_nat (nat_of_ascii c) in (n =? 32) || ((9 <=? n) && (n <=? 13)).

Fixpoint all_digits (s : string) : bool :=
  match s with
  | EmptyString => true
  | String c s' => isdigit c && all_digits s'
  end.

(** [s.substr(pos)]: the characters from [pos] on; [std::out_of_range]
    when [pos > s.size()]. *)
Fixpoint substr (s : string) (pos : nat) : result string :=
  match pos, s with
  | O, _ => Returned s
  | S p, String _ s' => substr s' p
  | S _, EmptyString => Thrown out_of_range
  end.

(** [s.substr(0, s.find_first_of(c))]: the characters before the first
    [c]; the whole string when there is none ([npos]). *)
Fixpoint substr_until (c : ascii) (s : string) : string :=
  match s with
  | EmptyString => EmptyString
  | String a s' => if Ascii.eqb a c then EmptyString else String a (substr_until c s')
  end.

(* ------------------------------------------------------------------ *)
(** *** [std::stoi] *)

Fixpoint skip_space (s : string) : string :=
  match s with
  | String c s' => if isspace c then skip_space s' else s
  | EmptyString => s
  end.

(** Value of the longest run of digits at the head of [s], after [acc]. *)
Fixpoint digits_value (acc : Z) (s : string) : Z :=
  match s with
  | String c s' => if isdigit c then digits_value (10 * acc + digit_value c) s' else acc
  | EmptyString => acc
  end.

(** The digits part of [strtol]: at least one digit is required. *)
Definition parse_digits (s : string) : option Z :=
  match s with
  | String c _ => if isdigit c then Some (digits_value 0 s) else None
  | EmptyString => None
  end.

(** An optional sign before the digits. *)
Definition split_sign (s : string) : bool * string :=
  match s with
  | String "-" r => (true, r)
  | String "+" r => (false, r)
  | _ => (false, s)
  end.

(** [std::stoi(s)], base 10: leading white space, an optional sign, then
    digits up to the first character that is not one. *)
Definition stoi (s : string) : result Z :=
  let '(negative, s2) := split_sign (skip_space s) in
  match parse_digits s2 with
  | None => Thrown invalid_argument
  | Some v =>
      let v := if negative then - v else v in
      if (INT_MIN <=? v) && (v <=? INT_MAX) then Returned v else Thrown out_of_range
  end.

(* ------------------------------------------------------------------ *)
(** *** [std::to_string] on [std::size_t] *)

Fixpoint to_string_from (fuel : nat) (n : Z) (acc : string) : string :=
  let acc' := String (digit_char (n mod 10)) acc in
  match fuel with
  | O => acc'
  | S fuel' => if n <? 10 then acc' else to_string_from fuel' (n / 10) acc'
  end.

(** A [std::size_t] has at most 20 decimal digits. *)
Definition to_string (n : Z) : string := to_string_from 19 n EmptyString.

(* ================================================================== *)
(** ** Regular expressions ([std::regex], ECMAScript grammar)

    [regex] is the parsed pattern; [regex_match] decides whether the
    whole subject matches, by Brzozowski derivatives. Capture groups do
    not change which subjects match, and with [std::regex_match] the
    assertions [^] at the head and [$] at the tail always hold, so neither
    appears in the syntax. *)

Inductive regex : Type :=
| Empty                       (* matches nothing *)
| Eps                         (* matches the empty string *)
| Chr (c : ascii)             (* a pattern character *)
| AnyChar                     (* .  any character but a line terminator *)
| Range (lo hi : ascii)       (* [lo-hi] *)
| Cat (r1 r2 : regex)
| Alt (r1 r2 : regex)
| Star (r : regex).

(** [r+] *)
Definition Plus (r : regex) : regex := Cat r (Star r).

Definition line_terminator (c : ascii) : bool :=
  let n := nat_of_ascii c in Nat.eqb n 10 || Nat.eqb n 13.

Definition char_in_range (lo hi c : ascii) : bool :=
  (nat_of_ascii lo <=? nat_of_ascii c)%nat && (nat_of_ascii c <=? nat_of_ascii hi)%nat.

Fixpoint nullable (r : regex) : bool :=
  match r with
  | Empty => false
  | Eps => true
  | Chr _ => false
  | AnyChar => false
  | Range _ _ => false
  | Cat r1 r2 => nullable r1 && nullable r2
  | Alt r1 r2 => nullable r1 || nullable r2
  | Star _ => true
  end.

Fixpoint deriv (a : ascii) (r : regex) : regex :=
  match r with
  | Empty => Empty
  | Eps => Empty
  | Chr c => if Ascii.eqb a c then Eps else Empty
  | AnyChar => if line_terminator a then Empty else Eps
  | Range lo hi => if char_in_range lo hi a then Eps else Empty
  | Cat r1 r2 =>
      if nullable r1
      then Alt (Cat (deriv a r1) r2) (deriv a r2)
      else Cat (deriv a r1) r2
  | Alt r1 r2 => Alt (deriv a r1) (deriv a r2)
  | Star r1 => Cat (deriv a r1) (Star r1)
  end.

Fixpoint regex_match (s : string) (r : regex) : bool :=
  match s with
  | EmptyString => nullable r
  | String a s' => regex_match s' (deriv a r)
  end.

(** The pattern characters of a literal string, in sequence. *)
Fixpoint literal (s : string) : regex :=
  match s with
  | EmptyString => Eps
  | String c s' => Cat (Chr c) (literal s')
  end.

(** [[0-9]] *)
Definition Digit : regex := Range "0" "9".

(** A character with no special meaning in a pattern (ECMAScript
    PatternCharacter): anything but [^ $ \ . * + ? ( ) [ ] { } |]. *)
Definition pattern_character (c : ascii) : bool :=
  negb (existsb (Ascii.eqb c)
    ["^"; "$"; "\"; "."; "*"; "+"; "?"; "("; ")"; "["; "]"; "{"; "}"; "|"]%char).

Fixpoint pattern_characters (s : string) : bool :=
  match s with
  | EmptyString => true
  | String c s' => pattern_character c && pattern_characters s'
  end.

(* ================================================================== *)
(** ** [std::ranges::max] over a lazily computed range

    The elements are produced one after the other by the view pipeline;
    an exception raised while producing one leaves the call. The range
    must not be empty: the behaviour is undefined otherwise (the
    algorithm reads the first element before it tests for the end). *)

Definition max_step (acc : result Z) (x : result Z) : result Z :=
  a <- acc ;; b <- x ;; Returned (if a <? b then b else a).

Definition ranges_max (xs : list (result Z)) : result Z :=
  match xs with
  | [] => Undefined
  | x :: rest => fold_left max_step rest x
  end.

(* ================================================================== *)
(** ** The file system under the assets directory *)

(** What a path component names, as [std::filesystem::status] sees it
    (symbolic links followed). Names are single path components. *)
#[warnings="-register-all"]
Inductive node : Type :=
| File                                         (* a regular file *)
| Special                                      (* neither file nor directory *)
| Directory (entries : list (string * node)).

Definition dir : Type := list (string * node).

Definition is_directory (e : string * node) : bool :=
  match snd e with Directory _ => true | _ => false end.

Definition is_regular_file (e : string * node) : bool :=
  match snd e with File => true | _ => false end.

(** [entry.path().filename().string()] *)
Definition filename (e : string * node) : string := fst e.

Fixpoint lookup (name : string) (d : dir) : option node :=
  match d with
  | [] => None
  | (n, x) :: rest => if String.eqb n name then Some x else lookup name rest
  end.

(** [std::filesystem::directory_iterator{assets / name}]: the entries of
    that directory, in enumeration order; an error when the path does not
    name a directory. *)
Definition directory_iterator (assets : dir) (name : string) : result dir :=
  match lookup name assets with
  | Some (Directory entries) => Returned entries
  | _ => Thrown filesystem_error
  end.

(** The assets directory with a new, empty directory [name] in it. *)
Definition new_directory (assets : dir) (name : string) : dir :=
  (assets ++ [(name, Directory [])])%list.

(** [std::filesystem::create_directory(assets / name)]: [true] when the
    directory was made, [false] when a directory of that name was there
    already, an error when the name is taken by something else or the
    system refuses ([permitted = false]). The second component is the
    assets directory afterwards. *)
Definition create_directory (permitted : bool) (assets : dir) (name : string)
  : result bool * dir :=
  match lookup name assets with
  | Some (Directory _) => (Returned false, assets)
  | Some _ => (Thrown filesystem_error, assets)
  | None =>
      if permitted
      then (Returned true, new_directory assets name)
      else (Thrown filesystem_error, assets)
  end.

Definition add_file (entries : dir) (name : string) : dir :=
  match lookup name entries with
  | Some _ => entries
  | None => (entries ++ [(name, File)])%list
  end.

(** A file [name] written into directory [d] of the assets directory. *)
Fixpoint write_file (assets : dir) (d name : string) : dir :=
  match assets with
  | [] => []
  | (n, Directory entries) :: rest =>
      if String.eqb n d
      then (n, Directory (add_file entries name)) :: rest
      else (n, Directory entries) :: write_file rest d name
  | e :: rest => e :: write_file rest d name
  end.

(* ================================================================== *)
(** ** The index resolvers *)

(** The regex object built from ["^" + versionDirectoryName + "([0-9]+)$"].
    The name is spliced into the pattern as it is, so this reading holds
    for names made of pattern characters ([pattern_characters]), as the
    ["ver"] of [main] is. *)
Definition version_matcher (versionDirectoryName : string) : regex :=
  Cat (literal versionDirectoryName) (Plus Digit).

(** The regex object built from ["^([0-9]+).png$"]: the dot is the
    any-character atom. *)
Definition image_matcher : regex :=
  Cat (Plus Digit) (Cat AnyChar (literal "png")).

Definition findLastVersionIndex (assetsDirectory : dir) (versionDirectoryName : string)
  : result Z :=
  let isVersion := fun filename => regex_match filename (version_matcher versionDirectoryName) in
  let extractIndex := fun filename =>
    suffix <- substr filename (String.length versionDirectoryName) ;;
    i <- stoi suffix ;;
    Returned (size_t i) in
  ranges_max
    (map extractIndex
       (filter isVersion
          (map filename
             (filter is_directory assetsDirectory)))).

(** The result is the path [assetsDirectory / lastVersionFolder], given
    by its last component. *)
Definition findLastVersionDirectory (assetsDirectory : dir) (versionDirectoryName : string)
  : result string :=
  i <- findLastVersionIndex assetsDirectory versionDirectoryName ;;
  Returned (versionDirectoryName ++ to_string i).

Definition findLastImageIndex (assetsDirectory : dir) (versionDirectoryName : string)
  : result Z :=
  let isImage := fun filename => regex_match filename image_matcher in
  let extractIndex := fun filename =>
    i <- stoi (substr_until "." filename) ;;
    Returned (size_t i) in
  lastVersionDirectory <- findLastVersionDirectory assetsDirectory versionDirectoryName ;;
  entries <- directory_iterator assetsDirectory lastVersionDirectory ;;
  ranges_max
    (map extractIndex
       (filter isImage
          (map filename
             (filter is_regular_file entries)))).

(* ================================================================== *)
(** ** Locating the target process *)

Definition SAFARI_PROCESS_NAME : string := "Safari".
Definition MAX_PROCESS_CHUNK : nat := 2048.

(** A process as [proc_listpids] and [proc_pidinfo] show it: its pid and
    its [pbi_name], [None] when [proc_pidinfo] does not fill the record. *)
Definition process : Type := (Z * option string)%type.

Fixpoint first_safari (ps : list process) : result Z :=
  match ps with
  | [] => Thrown runtime_error
  | (pid, None) :: rest => first_safari rest
  | (pid, Some pbi_name) :: rest =>
      if String.eqb SAFARI_PROCESS_NAME pbi_name then Returned pid else first_safari rest
  end.

Definition findSafariPID (processes : list process) : result Z :=
  first_safari (firstn MAX_PROCESS_CHUNK processes).

(* ================================================================== *)
(** ** [main]: start-up *)

Definition versionDirectoryName : string := "ver".

(** What the process finds when it starts: the entries of [./assets]
    (the directory is there and can be read), the process table, and
    whether the system lets it make a directory. *)
Record world : Type := {
  assets : dir;
  processes : list process;
  mkdir_permitted : bool
}.

(** The variables of [main] that live across loop iterations;
    [newVersionPath] is given by its last component. *)
Record loop_state : Type := {
  newVersionPath : string;
  imageIndex : Z;
  safariPID : Z;
  keyCode : Z
}.

(** How the process can die: an exception nobody catches
    ([std::terminate]), a failed [assert], undefined behaviour, or the
    preview of a [NULL] screenshot: [CGImageToCVMat] has no [NULL] check
    and hands the reference on to CoreFoundation ([CFDataGetBytePtr],
    [CFRelease]), and at the latest [cv::imshow] refuses the empty
    matrix. *)
Inductive failure : Type :=
| Uncaught (e : exn)
| AssertionFailed
| UndefinedBehaviour
| PreviewCrash.

Definition failure_of {A : Type} (r : result A) : failure :=
  match r with
  | Thrown e => Uncaught e
  | _ => UndefinedBehaviour
  end.

Inductive startup_result : Type :=
| Started (disk : dir) (st : loop_state)
| StartupFailed (f : failure) (disk : dir).

(** Lines 129-139. The [assert] is that of a build without [NDEBUG]: its
    argument is evaluated, and [false] aborts the process. An exception
    that leaves [main] ends the process through [std::terminate]. *)
Definition startup (w : world) : startup_result :=
  match findLastVersionIndex (assets w) versionDirectoryName with
  | Returned versionIndex =>
      match findLastImageIndex (assets w) versionDirectoryName with
      | Returned imageIndex =>
          let versionIndex := size_t (versionIndex + 1) in
          let newVersionDirectoryName := versionDirectoryName ++ to_string versionIndex in
          match create_directory (mkdir_permitted w) (assets w) newVersionDirectoryName with
          | (Returned true, disk) =>
              match findSafariPID (processes w) with
              | Returned pid =>
                  Started disk {| newVersionPath := newVersionDirectoryName;
                                  imageIndex := imageIndex;
                                  safariPID := pid;
                                  keyCode := -1 |}
              | r => StartupFailed (failure_of r) disk
              end
          | (Returned false, disk) => StartupFailed AssertionFailed disk
          | (r, disk) => StartupFailed (failure_of r) disk
          end
      | r => StartupFailed (failure_of r) (assets w)
      end
  | r => StartupFailed (failure_of r) (assets w)
  end.

(* ================================================================== *)
(** ** [main]: the capture loop *)

Definition expected_title : string := "Poker Now - Poker with Friends".

(** One dictionary of [CGWindowListCopyWindowInfo]. [title] is [None]
    when the dictionary has no [kCGWindowName], [Some None] when
    [CFStringGetCString] fails on it, and otherwise the C string read. *)
Record window : Type := {
  owner : Z;
  title : option (option string);
  number : Z
}.

(** What the collaborators answer during one iteration of the [do] loop:
    the window list, whether the screenshot is [NULL], whether the image
    destination could be made and finalized, and the key [cv::waitKey]
    returns. The last four are read only when a window is captured, and
    the key only when the preview of the screenshot returns, which it
    does for a screenshot that is not [NULL]. A write that reports
    success has put the file in place. *)
Record tick : Type := {
  windows : list window;
  screenshot_null : bool;
  destination_made : bool;
  finalized : bool;
  key : Z
}.

(** The [for] loop up to its [break]: the first window owned by the
    target process whose title reads as the expected one. *)
Fixpoint find_window (pid : Z) (ws : list window) : option window :=
  match ws with
  | [] => None
  | w :: rest =>
      if negb (owner w =? pid) then find_window pid rest
      else match title w with
           | Some (Some windowName) =>
               if String.eqb windowName expected_title then Some w
               else find_window pid rest
           | Some None => find_window pid rest
           | None => find_window pid rest
           end
  end.

Definition SaveCGImageToPNG (t : tick) : bool :=
  if screenshot_null t then false
  else if negb (destination_made t) then false
  else finalized t.

(** What an iteration did, for the record of a run: it found no window;
    it captured one, allocated [index] and went on to read a key; or the
    screenshot was [NULL], [index] was allocated, and the process died in
    the preview (lines 175-176) without reading a key. *)
Inductive event : Type :=
| NoWindow
| Capture (index : Z) (saved : bool)
| NullCapture (index : Z).

(** The body of the [do] loop, lines 142-182. *)
Definition iteration (st : loop_state) (disk : dir) (t : tick)
  : loop_state * dir * event :=
  match find_window (safariPID st) (windows t) with
  | Some _ =>
      let imageIndex' := size_t (imageIndex st + 1) in
      let saved := SaveCGImageToPNG t in
      let disk' :=
        if saved
        then write_file disk (newVersionPath st) (to_string imageIndex' ++ ".png")
        else disk in
      if screenshot_null t
      then ({| newVersionPath := newVersionPath st;
               imageIndex := imageIndex';
               safariPID := safariPID st;
               keyCode := keyCode st |}, disk', NullCapture imageIndex')
      else ({| newVersionPath := newVersionPath st;
               imageIndex := imageIndex';
               safariPID := safariPID st;
               keyCode := key t |}, disk', Capture imageIndex' saved)
  | None => (st, disk, NoWindow)
  end.

(** A run of the process over the answers it was given: it returned from
    [main], it died during start-up, it died in the loop, or it is still
    in the loop, about to start the next iteration, when the answers end.
    [log] lists the iterations so far. *)
Inductive run : Type :=
| Exited (status : Z) (disk : dir) (log : list event)
| Aborted (f : failure) (disk : dir)
| InLoop (st : loop_state) (disk : dir) (log : list event)
| Crashed (f : failure) (disk : dir) (log : list event).

Definition logged (e : event) (r : run) : run :=
  match r with
  | Exited c d l => Exited c d (e :: l)
  | Aborted f d => Aborted f d
  | InLoop st d l => InLoop st d (e :: l)
  | Crashed f d l => Crashed f d (e :: l)
  end.

(** The [do ... while (true)] loop, lines 141-188, and [return 0]. An
    iteration that ended in the preview of a [NULL] screenshot does not
    reach the test of line 184: the process is dead. *)
Fixpoint capture_loop (st : loop_state) (disk : dir) (ticks : list tick) : run :=
  match ticks with
  | [] => InLoop st disk []
  | t :: rest =>
      let '(st', disk', e) := iteration st disk t in
      match e with
      | NullCapture _ => Crashed PreviewCrash disk' [e]
      | _ =>
          if keyCode st' =? 113
          then Exited 0 disk' [e]
          else logged e (capture_loop st' disk' rest)
      end
  end.

Definition main (w : world) (ticks : list tick) : run :=
  match startup w with
  | Started disk st => capture_loop st disk ticks
  | StartupFailed f disk => Aborted f disk
  end.

(** The assets directory as start-up leaves it. *)
Definition startup_disk (r : startup_result) : dir :=
  match r with
  | Started disk _ => disk
  | StartupFailed _ disk => disk
  end.

(** Projections of a run. *)
Definition log_of (r : run) : list event :=
  match r with
  | Exited _ _ l => l
  | Aborted _ _ => []
  | InLoop _ _ l => l
  | Crashed _ _ l => l
  end.

Definition disk_of (r : run) : dir :=
  match r with
  | Exited _ d _ => d
  | Aborted _ d => d
  | InLoop _ d _ => d
  | Crashed _ d _ => d
  end.

Definition prepend (l : list event) (r : run) : run :=
  fold_right logged r l.

(** The first capture of a log, and the first one that was saved (a
    capture of a [NULL] screenshot is not saved). *)
Fixpoint first_capture (l : list event) : option (Z * bool) :=
  match l with
  | [] => None
  | NoWindow :: rest => first_capture rest
  | Capture i saved :: _ => Some (i, saved)
  | NullCapture i :: _ => Some (i, false)
  end.

Fixpoint first_saved (l : list event) : option Z :=
  match l with
  | [] => None
  | Capture i true :: _ => Some i
  | _ :: rest => first_saved rest
  end.

(** All entries are regular files. *)
Definition all_files (es : dir) : Prop := Forall (fun e => snd e = File) es.

(** [f] is a regular file of the directory [d] of [disk]. *)
Definition has_file (disk : dir) (d f : string) : Prop :=
  exists entries, lookup d disk = Some (Directory entries) /\ In (f, File) entries.

(** A window owned by the target process has exactly the expected title. *)
Definition target_window_present (pid : Z) (ws : list window) : Prop :=
  exists win, In win ws /\ owner win = pid /\ title win = Some (Some expected_title).

(** A process of that name is in the process table. *)
Definition running (name : string) (ps : list process) : Prop :=
  exists pid, In (pid, Some name) ps.

(* ================================================================== *)
(** ** The words of the specification

    Definitions that follow the specification's sentences, to compare the
    code with. *)

Module Spec.

(** The number a string of decimal digits denotes. *)
Fixpoint numeral_value (ds : string) : Z :=
  match ds with
  | EmptyString => 0
  | String c ds' => digit_value c * 10 ^ Z.of_nat (String.length ds') + numeral_value ds'
  end.

(** One or more decimal digits: the number; anything else: none. *)
Definition numeral (ds : string) : option Z :=
  match ds with
  | EmptyString => None
  | _ => if all_digits ds then Some (numeral_value ds) else None
  end.

Fixpoint strip_prefix (prefix s : string) : option string :=
  match prefix, s with
  | EmptyString, _ => Some s
  | String a p', String b s' => if Ascii.eqb a b then strip_prefix p' s' else None
  | String _ _, EmptyString => None
  end.

(** "prefix followed by one or more decimal digits and nothing else":
    the integer N of a name [prefix+N]. *)
Definition version_index (prefix name : string) : option Z :=
  match strip_prefix prefix name with
  | Some ds => numeral ds
  | None => None
  end.

(** The part of [s] before its first dot and the part after it. *)
Fixpoint split_dot (s : string) : option (string * string) :=
  match s with
  | EmptyString => None
  | String a s' =>
      if Ascii.eqb a "."
      then Some (EmptyString, s')
      else match split_dot s' with
           | Some (stem, ext) => Some (String a stem, ext)
           | None => None
           end
  end.

(** [^[0-9]+\.png$]: the full numeric stem, a literal dot, then [png];
    the integer M of a name [M.png]. *)
Definition image_index (name : string) : option Z :=
  match split_dot name with
  | Some (stem, ext) => if String.eqb ext "png" then numeral stem else None
  | None => None
  end.

(** The indices of the version directories directly under the root. *)
Fixpoint version_indices (prefix : string) (root : dir) : list Z :=
  match root with
  | [] => []
  | (name, Directory _) :: rest =>
      match version_index prefix name with
      | Some n => n :: version_indices prefix rest
      | None => version_indices prefix rest
      end
  | _ :: rest => version_indices prefix rest
  end.

(** The indices of the image files directly under a version directory. *)
Fixpoint image_indices (entries : dir) : list Z :=
  match entries with
  | [] => []
  | (name, File) :: rest =>
      match image_index name with
      | Some m => m :: image_indices rest
      | None => image_indices rest
      end
  | _ :: rest => image_indices rest
  end.

(** The maximum of a set of integers; none for the empty set. *)
Fixpoint maximum (l : list Z) : option Z :=
  match l with
  | [] => None
  | x :: rest =>
      match maximum rest with
      | Some m => Some (Z.max x m)
      | None => Some x
      end
  end.

End Spec.

(** The strings a pattern denotes, as a relation; [regex_match] is shown
    to decide it. *)
Inductive denotes : regex -> string -> Prop :=
| D_Eps : denotes Eps EmptyString
| D_Chr c : denotes (Chr c) (String c EmptyString)
| D_Any c : line_terminator c = false -> denotes AnyChar (String c EmptyString)
| D_Range lo hi c : char_in_range lo hi c = true -> denotes (Range lo hi) (String c EmptyString)
| D_Cat r1 r2 s1 s2 : denotes r1 s1 -> denotes r2 s2 -> denotes (Cat r1 r2) (s1 ++ s2)
| D_AltL r1 r2 s : denotes r1 s -> denotes (Alt r1 r2) s
| D_AltR r1 r2 s : denotes r2 s -> denotes (Alt r1 r2) s
| D_Star0 r : denotes (Star r) EmptyString
| D_StarS r s1 s2 : denotes r s1 -> denotes (Star r) s2 -> denotes (Star r) (s1 ++ s2).

(** What [extractIndex] makes of a name whose digits denote [v]:
    [std::stoi] keeps to the range of [int]. *)
Definition int_index (v : Z) : result Z :=
  if v <=? INT_MAX then Returned v else Thrown out_of_range.

Definition in_int_range (v : Z) : bool := v <=? INT_MAX.

(** What the Image Index Resolver reads in a directory: for each regular
    file whose name [isImage] accepts, the value of the digits the name
    starts with. *)
Definition image_values (entries : dir) : list Z :=
  map (digits_value 0)
      (filter (fun filename => regex_match filename image_matcher)
              (map filename (filter is_regular_file entries))).

(** A numeral that starts with a digit other than [0]. *)
Definition head_nonzero (ds : string) : bool :=
  match ds with
  | String c _ => negb (Ascii.eqb c "0")
  | EmptyString => false
  end.

(** A numeral without superfluous leading zeros, the way [std::to_string]
    writes a number. *)
Definition canonical (ds : string) : bool :=
  head_nonzero ds || String.eqb ds "0".

(** Every regular file whose name [isImage] accepts has the dot before
    [png], that is, its name is one of the specification's pattern. *)
Definition accepted_names_dotted (entries : dir) : bool :=
  forallb (fun e =>
             negb (is_regular_file e)
             || negb (regex_match (filename e) image_matcher)
             || match Spec.image_index (filename e) with
                | Some _ => true
                | None => false
                end) entries.

(** Every version directory under the root carries its index the way
    [std::to_string] writes it. *)
Definition canonical_version_names (prefix : string) (root : dir) : bool :=
  forallb (fun e =>
             match snd e, Spec.strip_prefix prefix (fst e) with
             | Directory _, Some ds =>
                 match Spec.numeral ds with
                 | Some _ => canonical ds
                 | None => true
                 end
             | _, _ => true
             end) root.

(* ================================================================== *)
(** ** Statements of the specification that the code is compared with *)

(** "Given a root with at least one version directory, the Version Index
    Resolver returns the maximum N over the matching names." *)
Definition returns_maximum_version (root : dir) (prefix : string) : Prop :=
  Spec.version_indices prefix root <> [] ->
  exists m, Spec.maximum (Spec.version_indices prefix root) = Some m
            /\ findLastVersionIndex root prefix = Returned m.

(** "The Image Index Resolver counts exactly the regular files whose name
    matches [^[0-9]+\.png$] and returns the maximum numeric stem." *)
Definition returns_maximum_image (root : dir) (prefix : string) : Prop :=
  forall d entries,
    findLastVersionDirectory root prefix = Returned d ->
    lookup d root = Some (Directory entries) ->
    Spec.image_indices entries <> [] ->
    exists m, Spec.maximum (Spec.image_indices entries) = Some m
              /\ findLastImageIndex root prefix = Returned m.

(** "The path returned by findLastVersionDirectory names a directory that
    exists under the root." *)
Definition last_version_directory_exists (root : dir) (prefix : string) : Prop :=
  forall path, findLastVersionDirectory root prefix = Returned path ->
               exists entries, In (path, Directory entries) root.

(** "If the target process is not running at startup, the process aborts
    before any directory is created." *)
Definition aborts_before_any_directory (w : world) : Prop :=
  ~ running SAFARI_PROCESS_NAME (processes w) ->
  forall ticks, exists f, main w ticks = Aborted f (assets w).

(** "The first successful capture of a run is persisted under index
    (prior maximum M) + 1." *)
Definition first_saved_is_next (w : world) (ticks : list tick) : Prop :=
  forall m i,
    findLastImageIndex (assets w) versionDirectoryName = Returned m ->
    first_saved (log_of (main w ticks)) = Some i ->
    i = m + 1.

(* ================================================================== *)
(** ** A sample run: [ver1/{1.png, 2.png}] on disk, Safari running *)

Definition sample_world : world :=
  {| assets := [("ver1", Directory [("1.png", File); ("2.png", File)])];
     processes := [(1, Some "launchd"); (77, Some "Safari")];
     mkdir_permitted := true |}.

Definition sample_window : window :=
  {| owner := 77; title := Some (Some expected_title); number := 5 |}.

(** The target window is on screen; the write succeeds or not; the
    operator presses [k]. *)
Definition sample_tick (saved : bool) (k : Z) : tick :=
  {| windows := [{| owner := 1; title := None; number := 2 |}; sample_window];
     screenshot_null := false;
     destination_made := true;
     finalized := saved;
     key := k |}.

(** Only another application's window and an untitled one are on screen. *)
Definition idle_tick : tick :=
  {| windows := [{| owner := 1; title := Some (Some expected_title); number := 2 |};
                 {| owner := 77; title := Some (Some "Start Page"); number := 3 |};
                 {| owner := 77; title := None; number := 4 |}];
     screenshot_null := false;
     destination_made := true;
     finalized := true;
     key := 113 |}.

(* ================================================================== *)
(** ** Reading a run's log *)

(** The image indices of the captures of a log, in order, and those of
    the captures that were saved. *)
Fixpoint capture_indices (l : list event) : list Z :=
  match l with
  | [] => []
  | NoWindow :: rest => capture_indices rest
  | Capture i _ :: rest => i :: capture_indices rest
  | NullCapture i :: rest => i :: capture_indices rest
  end.

Fixpoint saved_indices (l : list event) : list Z :=
  match l with
  | [] => []
  | Capture i true :: rest => i :: saved_indices rest
  | _ :: rest => saved_indices rest
  end.

(** The assets directory followed by a directory [name] of the given
    entries. *)
Definition with_directory (assets : dir) (name : string) (entries : dir) : dir :=
  (assets ++ [(name, Directory entries)])%list.

(** The directory entry of the image saved under index [i]. *)
Definition image_file (i : Z) : string * node := (to_string i ++ ".png", File).

(** The index the code gives a file named [ds], one character [c], then
    [png]: [std::stoi] reads on through [c] when it is a digit. *)
Definition stem_value (ds : string) (c : ascii) : Z :=
  if isdigit c then Spec.numeral_value (ds ++ String c "") else Spec.numeral_value ds.

(* ================================================================== *)
(** * Properties *)

(** ** Strings *)

Lemma append_assoc (s1 s2 s3 : string) : (s1 ++ s2) ++ s3 = s1 ++ (s2 ++ s3).
Proof. induction s1 as [|c s1 IH]; simpl; [reflexivity | now rewrite IH]. Qed.

Lemma append_nil_r (s : string) : s ++ "" = s.
Proof. induction s as [|c s IH]; simpl; [reflexivity | now rewrite IH]. Qed.

Lemma append_eq_nil (s1 s2 : string) : s1 ++ s2 = "" -> s1 = "" /\ s2 = "".
Proof. destruct s1; simpl; [auto | discriminate]. Qed.

Lemma append_eq_cons (s1 s2 s : string) (a : ascii) :
  s1 ++ s2 = String a s ->
  (s1 = "" /\ s2 = String a s) \/ (exists s1', s1 = String a s1' /\ s = s1' ++ s2).
Proof.
  destruct s1 as [|b s1]; simpl; intros H.
  - left; auto.
  - right. injection H as -> <-. now exists s1.
Qed.

Lemma append_inv_head (p s1 s2 : string) : p ++ s1 = p ++ s2 -> s1 = s2.
Proof. induction p as [|c p IH]; simpl; intros H; [exact H | injection H as H; auto]. Qed.

Lemma length_append (s1 s2 : string) :
  String.length (s1 ++ s2) = (String.length s1 + String.length s2)%nat.
Proof. induction s1 as [|c s1 IH]; simpl; [reflexivity | now rewrite IH]. Qed.

Lemma all_digits_app (s1 s2 : string) :
  all_digits (s1 ++ s2) = all_digits s1 && all_digits s2.
Proof.
  induction s1 as [|c s1 IH]; simpl; [reflexivity|].
  now rewrite IH, andb_assoc.
Qed.

(** ** Regular expressions: the matcher decides the denotation *)

Lemma nullable_denotes (r : regex) : nullable r = true <-> denotes r "".
Proof.
  split.
  - induction r; simpl; intros H; try discriminate.
    + constructor.
    + apply andb_true_iff in H as [H1 H2].
      change "" with ("" ++ ""). constructor; auto.
    + apply orb_true_iff in H as [H|H]; [apply D_AltL | apply D_AltR]; auto.
    + constructor.
  - intros H. remember "" as s eqn:Es.
    induction H; simpl; try discriminate; try reflexivity.
    + apply append_eq_nil in Es as [-> ->]. rewrite IHdenotes1, IHdenotes2; auto.
    + rewrite IHdenotes; auto.
    + rewrite IHdenotes; auto using orb_true_r.
Qed.

Lemma denotes_cat_inv (r1 r2 : regex) (s : string) :
  denotes (Cat r1 r2) s ->
  exists s1 s2, s = s1 ++ s2 /\ denotes r1 s1 /\ denotes r2 s2.
Proof. intros H. inversion H; subst. eauto. Qed.

Lemma denotes_chr_inv (c : ascii) (s : string) :
  denotes (Chr c) s -> s = String c "".
Proof. intros H. now inversion H. Qed.

Lemma denotes_any_inv (s : string) :
  denotes AnyChar s -> exists c, s = String c "" /\ line_terminator c = false.
Proof. intros H. inversion H; subst. eauto. Qed.

Lemma denotes_range_inv (lo hi : ascii) (s : string) :
  denotes (Range lo hi) s -> exists c, s = String c "" /\ char_in_range lo hi c = true.
Proof. intros H. inversion H; subst. eauto. Qed.

Lemma deriv_sound (a : ascii) (r : regex) :
  forall s, denotes (deriv a r) s -> denotes r (String a s).
Proof.
  induction r; simpl; intros s H.
  - inversion H.
  - inversion H.
  - destruct (Ascii.eqb_spec a c) as [->|]; inversion H; subst. constructor.
  - destruct (line_terminator a) eqn:E; inversion H; subst. now constructor.
  - destruct (char_in_range lo hi a) eqn:E; inversion H; subst. now constructor.
  - assert (Hcat : forall t, denotes (Cat (deriv a r1) r2) t -> denotes (Cat r1 r2) (String a t)).
    { intros t Ht. apply denotes_cat_inv in Ht as (s1 & s2 & -> & H1 & H2).
      change (String a (s1 ++ s2)) with (String a s1 ++ s2). constructor; auto. }
    destruct (nullable r1) eqn:N; [|auto].
    inversion H; subst; [auto|].
    change (String a s) with ("" ++ String a s).
    constructor; [now apply nullable_denotes | auto].
  - inversion H; subst; [apply D_AltL | apply D_AltR]; auto.
  - apply denotes_cat_inv in H as (s1 & s2 & -> & H1 & H2).
    change (String a (s1 ++ s2)) with (String a s1 ++ s2). constructor; auto.
Qed.

Lemma deriv_complete (a : ascii) (r : regex) (t : string) :
  denotes r t -> forall u, t = String a u -> denotes (deriv a r) u.
Proof.
  induction 1; intros u E; simpl; try discriminate.
  - injection E as -> <-. rewrite Ascii.eqb_refl. constructor.
  - injection E as -> <-. rewrite H. constructor.
  - injection E as -> <-. rewrite H. constructor.
  - apply append_eq_cons in E as [[-> ->] | (s1' & -> & ->)].
    + assert (N : nullable r1 = true) by now apply nullable_denotes.
      rewrite N. apply D_AltR. auto.
    + assert (C : denotes (Cat (deriv a r1) r2) (s1' ++ s2)) by (constructor; auto).
      destruct (nullable r1); [apply D_AltL|]; exact C.
  - apply D_AltL; auto.
  - apply D_AltR; auto.
  - apply append_eq_cons in E as [[-> ->] | (s1' & -> & ->)].
    + apply (IHdenotes2 u eq_refl).
    + constructor; auto.
Qed.

Lemma regex_match_denotes (s : string) :
  forall r, regex_match s r = true <-> denotes r s.
Proof.
  induction s as [|a s IH]; intros r; simpl.
  - apply nullable_denotes.
  - rewrite IH. split.
    + apply deriv_sound.
    + intros H. now apply (deriv_complete a r (String a s)).
Qed.

Lemma denotes_literal (p s : string) : denotes (literal p) s <-> s = p.
Proof.
  split.
  - revert s. induction p as [|c p IH]; simpl; intros s H.
    + now inversion H.
    + apply denotes_cat_inv in H as (s1 & s2 & -> & H1 & H2).
      apply denotes_chr_inv in H1 as ->. simpl. f_equal. auto.
  - intros ->. induction p as [|c p IH]; simpl.
    + constructor.
    + change (String c p) with (String c "" ++ p). constructor; [constructor | exact IH].
Qed.

Lemma digit_range (c : ascii) : char_in_range "0" "9" c = isdigit c.
Proof. destruct c as [[] [] [] [] [] [] [] []]; reflexivity. Qed.

Lemma denotes_digit_inv (s : string) :
  denotes Digit s -> exists c, s = String c "" /\ isdigit c = true.
Proof.
  intros H. apply denotes_range_inv in H as (c & -> & Hc).
  exists c. now rewrite <- digit_range.
Qed.

Lemma denotes_digit (c : ascii) : isdigit c = true -> denotes Digit (String c "").
Proof. intros H. constructor. now rewrite digit_range. Qed.

Lemma denotes_digits (s : string) : denotes (Star Digit) s <-> all_digits s = true.
Proof.
  split.
  - intros H. remember (Star Digit) as r eqn:Er.
    induction H; try discriminate; [reflexivity|].
    injection Er as ->. apply denotes_digit_inv in H as (c & -> & Hc).
    simpl. rewrite Hc. auto.
  - induction s as [|c s IH]; simpl; intros H.
    + constructor.
    + apply andb_true_iff in H as [Hc Hs].
      change (String c s) with (String c "" ++ s).
      constructor; [now apply denotes_digit | auto].
Qed.

Lemma denotes_plus_digits (s : string) :
  denotes (Plus Digit) s <-> s <> "" /\ all_digits s = true.
Proof.
  unfold Plus. split.
  - intros H. apply denotes_cat_inv in H as (s1 & s2 & -> & H1 & H2).
    apply denotes_digit_inv in H1 as (c & -> & Hc).
    apply denotes_digits in H2. simpl. rewrite Hc.
    split; [discriminate | exact H2].
  - intros [Hne Hd]. destruct s as [|c s]; [congruence|].
    simpl in Hd. apply andb_true_iff in Hd as [Hc Hs].
    change (String c s) with (String c "" ++ s).
    constructor; [now apply denotes_digit | now apply denotes_digits].
Qed.

(** The names [isVersion] accepts. *)
Lemma version_matcher_spec (prefix name : string) :
  regex_match name (version_matcher prefix) = true <->
  exists ds, name = prefix ++ ds /\ ds <> "" /\ all_digits ds = true.
Proof.
  rewrite regex_match_denotes. unfold version_matcher. split.
  - intros H. apply denotes_cat_inv in H as (s1 & s2 & -> & H1 & H2).
    apply denotes_literal in H1 as ->. apply denotes_plus_digits in H2.
    now exists s2.
  - intros (ds & -> & Hd). constructor; [now apply denotes_literal | now apply denotes_plus_digits].
Qed.

(** The names [isImage] accepts: digits, then any one character that is
    not a line terminator, then [png]. *)
Lemma image_matcher_spec (name : string) :
  regex_match name image_matcher = true <->
  exists ds c, name = ds ++ String c "png" /\ ds <> "" /\ all_digits ds = true
               /\ line_terminator c = false.
Proof.
  rewrite regex_match_denotes. unfold image_matcher. split.
  - intros H. apply denotes_cat_inv in H as (s1 & s2 & -> & H1 & H2).
    apply denotes_plus_digits in H1 as [Hne Hd].
    apply denotes_cat_inv in H2 as (s3 & s4 & -> & H3 & H4).
    apply denotes_any_inv in H3 as (c & -> & Hc).
    apply denotes_literal in H4 as ->. exists s1, c. auto.
  - intros (ds & c & -> & Hne & Hd & Hc).
    constructor; [now apply denotes_plus_digits|].
    change (String c "png") with (String c "" ++ "png").
    constructor; [now constructor | now apply denotes_literal].
Qed.

(** ** Numerals *)

Lemma isdigit_digit_value (c : ascii) :
  isdigit c = true -> 0 <= digit_value c <= 9.
Proof.
  unfold isdigit, digit_value. intros H.
  apply andb_true_iff in H as [H1 H2].
  apply Z.leb_le in H1, H2. lia.
Qed.

Lemma isdigit_not_space (c : ascii) : isdigit c = true -> isspace c = false.
Proof.
  unfold isdigit, isspace. intros H.
  apply andb_true_iff in H as [H1 H2]. apply Z.leb_le in H1, H2.
  apply orb_false_iff. split.
  - apply Z.eqb_neq. lia.
  - apply andb_false_iff. right. apply Z.leb_gt. lia.
Qed.

Lemma isdigit_not_sign (c : ascii) :
  isdigit c = true -> c <> "-"%char /\ c <> "+"%char.
Proof. split; intros ->; discriminate. Qed.

Lemma numeral_value_nonneg (ds : string) :
  all_digits ds = true -> 0 <= Spec.numeral_value ds.
Proof.
  induction ds as [|c ds IH]; simpl; intros H; [lia|].
  apply andb_true_iff in H as [Hc Hd].
  pose proof (isdigit_digit_value c Hc).
  assert (0 <= 10 ^ Z.of_nat (String.length ds)) by (apply Z.pow_nonneg; lia).
  specialize (IH Hd). nia.
Qed.

Lemma numeral_value_bound (ds : string) :
  all_digits ds = true -> Spec.numeral_value ds < 10 ^ Z.of_nat (String.length ds).
Proof.
  induction ds as [|c ds IH]; simpl String.length; simpl Spec.numeral_value; intros H.
  - simpl. lia.
  - simpl in H. apply andb_true_iff in H as [Hc Hd].
    pose proof (isdigit_digit_value c Hc). specialize (IH Hd).
    rewrite Nat2Z.inj_succ, Z.pow_succ_r by lia. nia.
Qed.

Lemma digits_value_numeral (ds : string) :
  all_digits ds = true ->
  forall acc, digits_value acc ds
              = acc * 10 ^ Z.of_nat (String.length ds) + Spec.numeral_value ds.
Proof.
  induction ds as [|c ds IH]; cbn [String.length Spec.numeral_value digits_value];
    intros H acc.
  - simpl. lia.
  - simpl in H. apply andb_true_iff in H as [Hc Hd].
    rewrite Hc, (IH Hd), Nat2Z.inj_succ, Z.pow_succ_r by lia. ring.
Qed.

Lemma skip_space_digit (c : ascii) (s : string) :
  isdigit c = true -> skip_space (String c s) = String c s.
Proof. intros H. cbn [skip_space]. now rewrite (isdigit_not_space c H). Qed.

Lemma split_sign_digit (c : ascii) (s : string) :
  isdigit c = true -> split_sign (String c s) = (false, String c s).
Proof.
  intros H. destruct (isdigit_not_sign c H) as [Hm Hp].
  destruct c as [[] [] [] [] [] [] [] []]; try reflexivity; congruence.
Qed.

(** [std::stoi] on a string of digits. *)
Lemma stoi_digits (ds : string) :
  ds <> "" -> all_digits ds = true ->
  stoi ds = int_index (Spec.numeral_value ds).
Proof.
  intros Hne Hd. pose proof (numeral_value_nonneg _ Hd) as Hn.
  destruct ds as [|c ds]; [congruence|].
  assert (Hc : isdigit c = true) by (simpl in Hd; now apply andb_true_iff in Hd).
  unfold stoi. rewrite (skip_space_digit c ds Hc), (split_sign_digit c ds Hc).
  unfold parse_digits. rewrite Hc, (digits_value_numeral _ Hd).
  rewrite Z.mul_0_l, Z.add_0_l. unfold int_index.
  replace (INT_MIN <=? Spec.numeral_value (String c ds)) with true
    by (symmetry; apply Z.leb_le; unfold INT_MIN; lia).
  reflexivity.
Qed.

Lemma numeral_some (ds : string) (v : Z) :
  Spec.numeral ds = Some v <->
  ds <> "" /\ all_digits ds = true /\ v = Spec.numeral_value ds.
Proof.
  unfold Spec.numeral. destruct ds as [|c ds].
  - split; [discriminate | intros [H _]; congruence].
  - destruct (all_digits (String c ds)).
    + split.
      * intros [= <-]. repeat split. discriminate.
      * intros (_ & _ & ->). reflexivity.
    + split; [discriminate | intros (_ & H & _); discriminate].
Qed.

Lemma stoi_numeral (ds : string) (v : Z) :
  Spec.numeral ds = Some v -> stoi ds = int_index v /\ 0 <= v.
Proof.
  intros H. apply numeral_some in H as (Hne & Hd & ->).
  split; [now apply stoi_digits | now apply numeral_value_nonneg].
Qed.

(** ** Names of version directories *)

Lemma strip_prefix_spec (prefix s ds : string) :
  Spec.strip_prefix prefix s = Some ds <-> s = prefix ++ ds.
Proof.
  revert s. induction prefix as [|a p IH]; intros s; simpl.
  - split; [now intros [= ->] | now intros ->].
  - destruct s as [|b s].
    + split; discriminate.
    + destruct (Ascii.eqb_spec a b) as [->|Hab].
      * rewrite IH. split; [now intros -> | now intros [= ->]].
      * split; [discriminate | intros [= E _]; congruence].
Qed.

Lemma substr_prefix (prefix ds : string) :
  substr (prefix ++ ds) (String.length prefix) = Returned ds.
Proof.
  induction prefix as [|a p IH]; simpl; [now destruct ds | exact IH].
Qed.

Lemma version_index_some (prefix name : string) (v : Z) :
  Spec.version_index prefix name = Some v <->
  exists ds, name = prefix ++ ds /\ ds <> "" /\ all_digits ds = true
             /\ v = Spec.numeral_value ds.
Proof.
  unfold Spec.version_index. split.
  - destruct (Spec.strip_prefix prefix name) as [ds|] eqn:E; [|discriminate].
    intros H. apply strip_prefix_spec in E. apply numeral_some in H.
    exists ds. tauto.
  - intros (ds & -> & H).
    assert (E : Spec.strip_prefix prefix (prefix ++ ds) = Some ds)
      by now apply strip_prefix_spec.
    rewrite E. now apply numeral_some.
Qed.

(** [isVersion] accepts the names the specification calls version names. *)
Lemma isVersion_version_index (prefix name : string) :
  regex_match name (version_matcher prefix)
  = match Spec.version_index prefix name with Some _ => true | None => false end.
Proof.
  destruct (Spec.version_index prefix name) as [v|] eqn:E.
  - apply version_matcher_spec. apply version_index_some in E as (ds & H).
    exists ds. tauto.
  - destruct (regex_match name (version_matcher prefix)) eqn:M; [|reflexivity].
    apply version_matcher_spec in M as (ds & -> & Hne & Hd).
    assert (H : Spec.version_index prefix (prefix ++ ds) = Some (Spec.numeral_value ds)).
    { apply version_index_some. exists ds. auto. }
    congruence.
Qed.

Lemma size_t_small (v : Z) : 0 <= v -> v < 2 ^ 64 -> size_t v = v.
Proof. intros. unfold size_t. now apply Z.mod_small. Qed.

Lemma int_index_bind_size_t (v : Z) :
  0 <= v -> (i <- int_index v ;; Returned (size_t i)) = int_index v.
Proof.
  intros Hv. unfold int_index. destruct (v <=? INT_MAX) eqn:E; simpl; [|reflexivity].
  apply Z.leb_le in E. unfold INT_MAX in E.
  rewrite size_t_small; [reflexivity | lia | lia].
Qed.

(** [extractIndex] of [findLastVersionIndex] on a version name. *)
Lemma extractIndex_version (prefix name : string) (v : Z) :
  Spec.version_index prefix name = Some v ->
  (suffix <- substr name (String.length prefix) ;;
   i <- stoi suffix ;; Returned (size_t i)) = int_index v.
Proof.
  intros H. apply version_index_some in H as (ds & -> & Hne & Hd & ->).
  rewrite substr_prefix. simpl bind at 1.
  rewrite (stoi_digits ds Hne Hd).
  apply int_index_bind_size_t. now apply numeral_value_nonneg.
Qed.

(** ** [std::ranges::max] *)

Lemma max_step_thrown (e : exn) (xs : list (result Z)) :
  fold_left max_step xs (Thrown e) = Thrown e.
Proof. induction xs as [|x xs IH]; simpl; auto. Qed.

Lemma fold_max_maximum (l : list Z) :
  forall a, fold_left Z.max l a
            = match Spec.maximum l with Some m => Z.max a m | None => a end.
Proof.
  induction l as [|x l IH]; intros a; simpl; [reflexivity|].
  rewrite IH. destruct (Spec.maximum l); [now rewrite Z.max_assoc | reflexivity].
Qed.

Lemma max_step_returned (a b : Z) :
  max_step (Returned a) (Returned b) = Returned (Z.max a b).
Proof.
  unfold max_step. simpl. f_equal. destruct (Z.ltb_spec a b); lia.
Qed.

Lemma int_index_in_range (v : Z) :
  int_index v = if in_int_range v then Returned v else Thrown out_of_range.
Proof. reflexivity. Qed.

Lemma fold_max_step_int_index (l : list Z) :
  forall a,
    fold_left max_step (map int_index l) (Returned a)
    = if forallb in_int_range l
      then Returned (fold_left Z.max l a)
      else Thrown out_of_range.
Proof.
  induction l as [|x l IH]; intros a; [reflexivity|].
  cbn [map fold_left forallb]. rewrite (int_index_in_range x).
  destruct (in_int_range x); cbn [andb].
  - rewrite max_step_returned. apply IH.
  - apply max_step_thrown.
Qed.

(** The result of the maximum over indices read with [std::stoi]. *)
Lemma ranges_max_int_index (l : list Z) :
  ranges_max (map int_index l)
  = match Spec.maximum l with
    | None => Undefined
    | Some m => if forallb in_int_range l then Returned m else Thrown out_of_range
    end.
Proof.
  destruct l as [|x l]; [reflexivity|].
  cbn [map ranges_max Spec.maximum forallb]. rewrite (int_index_in_range x).
  destruct (in_int_range x); cbn [andb].
  - rewrite fold_max_step_int_index, fold_max_maximum.
    destruct (Spec.maximum l); reflexivity.
  - rewrite max_step_thrown. destruct (Spec.maximum l); reflexivity.
Qed.

Lemma maximum_none (l : list Z) : Spec.maximum l = None <-> l = [].
Proof.
  destruct l as [|x l]; simpl; [tauto|].
  destruct (Spec.maximum l); split; discriminate.
Qed.

Lemma maximum_upper (l : list Z) (m : Z) :
  Spec.maximum l = Some m -> In m l /\ forall x, In x l -> x <= m.
Proof.
  revert m. induction l as [|y l IH]; simpl; [discriminate|].
  intros m. destruct (Spec.maximum l) as [m'|] eqn:E.
  - intros [= <-]. destruct (IH m' eq_refl) as [Hin Hle]. split.
    + destruct (Z.max_spec y m') as [[_ ->] | [_ ->]]; auto.
    + intros x [->|Hx]; [lia | specialize (Hle x Hx); lia].
  - intros [= <-]. apply maximum_none in E as ->. split; [auto|].
    intros x [->|[]]; lia.
Qed.

(** ** The version index resolver *)

Lemma version_pipeline (prefix : string) (root : dir) :
  map (fun filename =>
         suffix <- substr filename (String.length prefix) ;;
         i <- stoi suffix ;; Returned (size_t i))
      (filter (fun filename => regex_match filename (version_matcher prefix))
              (map filename (filter is_directory root)))
  = map int_index (Spec.version_indices prefix root).
Proof.
  induction root as [|[name x] root IH]; [reflexivity|].
  destruct x as [| |entries]; cbn [filter is_directory snd Spec.version_indices]; auto.
  cbn [map filename fst filter]. rewrite isVersion_version_index.
  destruct (Spec.version_index prefix name) as [v|] eqn:E; [|exact IH].
  cbn [map]. rewrite (extractIndex_version _ _ _ E). now f_equal.
Qed.

Lemma findLastVersionIndex_eq (root : dir) (prefix : string) :
  findLastVersionIndex root prefix
  = ranges_max (map int_index (Spec.version_indices prefix root)).
Proof. unfold findLastVersionIndex. now rewrite version_pipeline. Qed.

(** ** [std::to_string] *)

Lemma digit_char_digit (d : Z) :
  0 <= d <= 9 -> isdigit (digit_char d) = true /\ digit_value (digit_char d) = d.
Proof.
  intros H.
  assert (E : d = 0 \/ d = 1 \/ d = 2 \/ d = 3 \/ d = 4 \/ d = 5 \/ d = 6
              \/ d = 7 \/ d = 8 \/ d = 9) by lia.
  repeat (destruct E as [-> | E]; [split; reflexivity|]).
  subst. split; reflexivity.
Qed.

Lemma digit_value_digit_char (c : ascii) :
  isdigit c = true -> digit_char (digit_value c) = c.
Proof.
  destruct c as [[] [] [] [] [] [] [] []]; intros H; try discriminate H; reflexivity.
Qed.

Lemma numeral_value_snoc (ds : string) (c : ascii) :
  Spec.numeral_value (ds ++ String c "")
  = 10 * Spec.numeral_value ds + digit_value c.
Proof.
  induction ds as [|a ds IH]; cbn [append Spec.numeral_value String.length].
  - simpl. lia.
  - rewrite IH, length_append. cbn [String.length].
    rewrite Nat.add_1_r, Nat2Z.inj_succ, Z.pow_succ_r by lia. ring.
Qed.

(** The digits [to_string_from] puts before [acc] read back as [n]. *)
Lemma to_string_from_digits (fuel : nat) :
  forall n acc, 0 <= n < 10 ^ (Z.of_nat fuel + 1) ->
    exists ds, to_string_from fuel n acc = ds ++ acc
               /\ ds <> "" /\ all_digits ds = true /\ Spec.numeral_value ds = n.
Proof.
  assert (Hsmall : forall n acc, 0 <= n < 10 ->
            exists ds, String (digit_char (n mod 10)) acc = ds ++ acc
                       /\ ds <> "" /\ all_digits ds = true /\ Spec.numeral_value ds = n).
  { intros n acc Hn. exists (String (digit_char n) "").
    rewrite Z.mod_small by lia.
    destruct (digit_char_digit n) as [Hd Hv]; [lia|].
    repeat split; [discriminate | simpl; now rewrite Hd | simpl; lia]. }
  induction fuel as [|fuel IH]; intros n acc Hn; cbn [to_string_from].
  - apply Hsmall. simpl in Hn. lia.
  - destruct (Z.ltb_spec n 10) as [Hlt|Hge]; [apply Hsmall; lia|].
    assert (Hq : 0 <= n / 10 < 10 ^ (Z.of_nat fuel + 1)).
    { rewrite Nat2Z.inj_succ in Hn.
      replace (Z.succ (Z.of_nat fuel) + 1) with (Z.succ (Z.of_nat fuel + 1)) in Hn by lia.
      rewrite Z.pow_succ_r in Hn by lia.
      split; [apply Z.div_pos; lia | apply Z.div_lt_upper_bound; lia]. }
    destruct (IH (n / 10) (String (digit_char (n mod 10)) acc) Hq)
      as (ds & E & Hne & Hd & Hv).
    exists (ds ++ String (digit_char (n mod 10)) "").
    assert (Hm : 0 <= n mod 10 <= 9) by (pose proof (Z.mod_pos_bound n 10); lia).
    destruct (digit_char_digit _ Hm) as [Hcd Hcv].
    repeat split.
    + rewrite E, append_assoc. reflexivity.
    + destruct ds; [congruence | discriminate].
    + rewrite all_digits_app, Hd. simpl. now rewrite Hcd.
    + rewrite numeral_value_snoc, Hv, Hcv.
      pose proof (Z.div_mod n 10). lia.
Qed.

(** Rendering and reading back: [to_string] of a [std::size_t] is a
    numeral of that value. *)
Lemma numeral_to_string (n : Z) :
  0 <= n < 2 ^ 64 -> Spec.numeral (to_string n) = Some n.
Proof.
  intros Hn. unfold to_string.
  destruct (to_string_from_digits 19 n "") as (ds & E & Hne & Hd & Hv).
  { change (10 ^ (Z.of_nat 19 + 1)) with 100000000000000000000.
    change (2 ^ 64) with 18446744073709551616 in Hn. lia. }
  rewrite E, append_nil_r. apply numeral_some. auto.
Qed.

Lemma version_index_to_string (prefix : string) (n : Z) :
  0 <= n < 2 ^ 64 -> Spec.version_index prefix (prefix ++ to_string n) = Some n.
Proof.
  intros Hn. unfold Spec.version_index.
  assert (E : Spec.strip_prefix prefix (prefix ++ to_string n) = Some (to_string n))
    by now apply strip_prefix_spec.
  rewrite E. now apply numeral_to_string.
Qed.

Lemma snoc_decomposition (s : string) :
  s <> "" -> exists s' c, s = s' ++ String c "".
Proof.
  induction s as [|a s IH]; intros H; [congruence|].
  destruct s as [|b s].
  - now exists "", a.
  - destruct IH as (s' & c & E); [discriminate|].
    exists (String a s'), c. simpl. now rewrite <- E.
Qed.

Lemma nonzero_digit_value (c : ascii) :
  isdigit c = true -> negb (Ascii.eqb c "0") = true -> 1 <= digit_value c.
Proof.
  intros Hc Hz. pose proof (isdigit_digit_value c Hc).
  assert (digit_value c <> 0); [|lia].
  intros E. apply (f_equal digit_char) in E.
  rewrite (digit_value_digit_char c Hc) in E. subst c. discriminate.
Qed.

Lemma head_nonzero_length (ds : string) :
  all_digits ds = true -> head_nonzero ds = true ->
  10 ^ (Z.of_nat (String.length ds) - 1) <= Spec.numeral_value ds.
Proof.
  destruct ds as [|c ds]; [discriminate|].
  cbn [all_digits head_nonzero Spec.numeral_value String.length].
  intros Hd Hh. apply andb_true_iff in Hd as [Hc Hd].
  pose proof (numeral_value_nonneg _ Hd).
  pose proof (nonzero_digit_value c Hc Hh).
  replace (Z.of_nat (S (String.length ds)) - 1) with (Z.of_nat (String.length ds)) by lia.
  assert (0 <= 10 ^ Z.of_nat (String.length ds)) by (apply Z.pow_nonneg; lia).
  nia.
Qed.

Lemma head_nonzero_value (ds : string) :
  all_digits ds = true -> head_nonzero ds = true -> 1 <= Spec.numeral_value ds.
Proof.
  intros Hd Hh. pose proof (head_nonzero_length ds Hd Hh).
  assert (1 <= 10 ^ (Z.of_nat (String.length ds) - 1)); [|lia].
  destruct ds as [|c ds]; [discriminate|]. cbn [String.length].
  apply Z.pow_le_mono_r with (b := 0); lia.
Qed.

Lemma to_string_from_numeral (fuel : nat) :
  forall ds acc,
    all_digits ds = true -> head_nonzero ds = true ->
    (String.length ds <= S fuel)%nat ->
    to_string_from fuel (Spec.numeral_value ds) acc = ds ++ acc.
Proof.
  assert (Hone : forall c f acc, isdigit c = true ->
            to_string_from f (Spec.numeral_value (String c "")) acc = String c acc).
  { intros c f acc Hc. pose proof (isdigit_digit_value c Hc) as Hv.
    cbn [Spec.numeral_value String.length]. rewrite Z.add_0_r.
    replace (digit_value c * 10 ^ Z.of_nat 0) with (digit_value c) by (simpl; lia).
    destruct f as [|f]; cbn [to_string_from].
    - rewrite Z.mod_small by lia. now rewrite digit_value_digit_char.
    - destruct (Z.ltb_spec (digit_value c) 10); [|lia].
      rewrite Z.mod_small by lia. now rewrite digit_value_digit_char. }
  induction fuel as [|fuel IH]; intros ds acc Hd Hh Hlen.
  - destruct ds as [|c [|b ds]]; [discriminate | | simpl in Hlen; lia].
    simpl in Hd. rewrite andb_true_r in Hd. now apply Hone.
  - destruct (snoc_decomposition ds) as (ds' & c & ->); [now destruct ds|].
    rewrite all_digits_app in Hd. apply andb_true_iff in Hd as [Hd' Hc].
    simpl in Hc. rewrite andb_true_r in Hc.
    destruct ds' as [|a ds']; [now apply Hone|].
    assert (Hh' : head_nonzero (String a ds') = true) by exact Hh.
    pose proof (head_nonzero_value _ Hd' Hh') as Hv.
    pose proof (isdigit_digit_value c Hc) as Hc'.
    rewrite numeral_value_snoc. cbn [to_string_from].
    destruct (Z.ltb_spec (10 * Spec.numeral_value (String a ds') + digit_value c) 10); [lia|].
    replace ((10 * Spec.numeral_value (String a ds') + digit_value c) / 10)
      with (Spec.numeral_value (String a ds'))
      by (apply Z.div_unique_pos with (r := digit_value c); lia).
    replace ((10 * Spec.numeral_value (String a ds') + digit_value c) mod 10)
      with (digit_value c)
      by (apply Z.mod_unique_pos with (q := Spec.numeral_value (String a ds')); lia).
    rewrite (digit_value_digit_char c Hc), IH; auto.
    + now rewrite append_assoc.
    + rewrite length_append in Hlen. simpl in Hlen |- *. lia.
Qed.

(** Reading and rendering back: a canonical numeral that fits a
    [std::size_t] is what [to_string] writes for its value. *)
Lemma to_string_numeral_value (ds : string) :
  ds <> "" -> all_digits ds = true -> canonical ds = true ->
  Spec.numeral_value ds < 2 ^ 64 ->
  to_string (Spec.numeral_value ds) = ds.
Proof.
  intros Hne Hd Hc Hv. unfold canonical in Hc.
  apply orb_true_iff in Hc as [Hh | Hz].
  - unfold to_string. rewrite to_string_from_numeral; auto using append_nil_r.
    pose proof (head_nonzero_length _ Hd Hh) as Hl.
    destruct (Nat.le_gt_cases (String.length ds) 20) as [|Hgt]; [assumption|].
    exfalso.
    assert (10 ^ 20 <= 10 ^ (Z.of_nat (String.length ds) - 1))
      by (apply Z.pow_le_mono_r; lia).
    change (10 ^ 20) with 100000000000000000000 in *.
    change (2 ^ 64) with 18446744073709551616 in *. lia.
  - apply String.eqb_eq in Hz as ->. reflexivity.
Qed.

Lemma in_version_indices (prefix : string) (root : dir) (v : Z) :
  In v (Spec.version_indices prefix root) <->
  exists name entries, In (name, Directory entries) root
                       /\ Spec.version_index prefix name = Some v.
Proof.
  induction root as [|[name x] root IH]; cbn [Spec.version_indices].
  - split; [intros [] | intros (? & ? & [] & _)].
  - assert (Hskip : (exists n es, In (n, Directory es) root
                                  /\ Spec.version_index prefix n = Some v)
                    -> exists n es, In (n, Directory es) ((name, x) :: root)
                                    /\ Spec.version_index prefix n = Some v).
    { intros (n & es & Hin & Hv). exists n, es. split; [now right | exact Hv]. }
    destruct x as [| |entries].
    + rewrite IH. split; [exact Hskip|].
      intros (n & es & [E|Hin] & Hv); [discriminate | eauto].
    + rewrite IH. split; [exact Hskip|].
      intros (n & es & [E|Hin] & Hv); [discriminate | eauto].
    + destruct (Spec.version_index prefix name) as [w|] eqn:E.
      * cbn [In]. rewrite IH. split.
        -- intros [<- | H]; [|auto]. exists name, entries. split; [now left | exact E].
        -- intros (n & es & [[= <- <-]|Hin] & Hv); [left; congruence | right; eauto].
      * rewrite IH. split; [exact Hskip|].
        intros (n & es & [[= <- <-]|Hin] & Hv); [congruence | eauto].
Qed.

Lemma forallb_in_int_range (l : list Z) (v : Z) :
  forallb in_int_range l = true -> In v l -> v <= INT_MAX.
Proof.
  intros H Hin. rewrite forallb_forall in H. apply Z.leb_le. now apply H.
Qed.

(** What the resolver returns is the maximum of the version indices, and
    all of them are in the range of [int]. *)
Lemma findLastVersionIndex_returned (root : dir) (prefix : string) (m : Z) :
  findLastVersionIndex root prefix = Returned m ->
  Spec.maximum (Spec.version_indices prefix root) = Some m
  /\ forallb in_int_range (Spec.version_indices prefix root) = true.
Proof.
  rewrite findLastVersionIndex_eq, ranges_max_int_index.
  destruct (Spec.maximum (Spec.version_indices prefix root)) as [m'|]; [|discriminate].
  destruct (forallb in_int_range (Spec.version_indices prefix root)); [|discriminate].
  intros [= ->]. auto.
Qed.

Lemma findLastVersionIndex_no_match (root : dir) (prefix : string) :
  Spec.version_indices prefix root = [] ->
  findLastVersionIndex root prefix = Undefined.
Proof. intros H. now rewrite findLastVersionIndex_eq, H. Qed.

(** C1, as amended. For a root with at least one version directory, the
    Version Index Resolver returns the maximum N over the matching
    directory names when every such N is at most [INT_MAX], and leaves
    with [std::out_of_range] when one is larger; children that are not
    directories, or whose name is not the prefix followed by digits only,
    do not count. The prefix is made of pattern characters. *)
Theorem findLastVersionIndex_maximum (root : dir) (prefix : string) :
  pattern_characters prefix = true ->
  Spec.version_indices prefix root <> [] ->
  exists m, Spec.maximum (Spec.version_indices prefix root) = Some m
            /\ findLastVersionIndex root prefix
               = if forallb in_int_range (Spec.version_indices prefix root)
                 then Returned m
                 else Thrown out_of_range.
Proof.
  intros _ Hne. rewrite findLastVersionIndex_eq, ranges_max_int_index.
  destruct (Spec.maximum (Spec.version_indices prefix root)) as [m|] eqn:E.
  - exists m. auto.
  - apply maximum_none in E. contradiction.
Qed.

Lemma findLastVersionIndex_maximum_witness :
  exists m,
    Spec.maximum
      (Spec.version_indices "ver"
         [("ver1", Directory []); ("notes", File); ("ver12", Directory []);
          ("ver99", File); ("verx", Directory []); ("ver3", Directory [])]) = Some m
    /\ findLastVersionIndex
         [("ver1", Directory []); ("notes", File); ("ver12", Directory []);
          ("ver99", File); ("verx", Directory []); ("ver3", Directory [])] "ver"
       = Returned 12.
Proof.
  destruct (findLastVersionIndex_maximum
              [("ver1", Directory []); ("notes", File); ("ver12", Directory []);
               ("ver99", File); ("verx", Directory []); ("ver3", Directory [])]
              "ver" eq_refl) as (m & Hm & H).
  - vm_compute. discriminate.
  - exists m. split; [exact Hm | reflexivity].
Defined.

(** C1 as worded fails: a version directory whose digits exceed
    [INT_MAX] makes the resolver throw instead of returning the maximum. *)
Lemma findLastVersionIndex_maximum_counterexample :
  ~ returns_maximum_version [("ver1", Directory []); ("ver2147483648", Directory [])] "ver".
Proof.
  intros H. destruct H as (m & _ & H); [vm_compute; discriminate|].
  vm_compute in H. discriminate.
Qed.

(** C2. With no version directory under the root the Version Index
    Resolver has no defined result, and with no image file in the latest
    version directory neither has the Image Index Resolver: in both the
    maximum is taken over an empty range. *)
Theorem resolvers_undefined_on_empty :
  findLastVersionIndex [("notes.txt", File); ("version", Directory [])] "ver" = Undefined
  /\ findLastImageIndex [("ver1", Directory [("foo.png", File); ("1.jpg", File)])] "ver"
     = Undefined
  /\ startup {| assets := []; processes := [(501, Some "Safari")]; mkdir_permitted := true |}
     = StartupFailed UndefinedBehaviour [].
Proof. repeat split; reflexivity. Qed.

(** ** The latest version directory *)

Lemma canonical_version_names_in (prefix : string) (root : dir)
      (name : string) (entries : dir) (ds : string) :
  canonical_version_names prefix root = true ->
  In (name, Directory entries) root ->
  name = prefix ++ ds -> ds <> "" -> all_digits ds = true ->
  canonical ds = true.
Proof.
  intros Hc Hin -> Hne Hd. unfold canonical_version_names in Hc.
  rewrite forallb_forall in Hc. specialize (Hc _ Hin). cbn [fst snd] in Hc.
  assert (E : Spec.strip_prefix prefix (prefix ++ ds) = Some ds)
    by now apply strip_prefix_spec.
  rewrite E in Hc.
  assert (N : Spec.numeral ds = Some (Spec.numeral_value ds))
    by (apply numeral_some; auto).
  now rewrite N in Hc.
Qed.

(** C10, as amended. When the version directories under the root carry
    their index without superfluous leading zeros, the path returned by
    findLastVersionDirectory names one of the version directories that
    the resolver scanned; and it does return one when there is a version
    directory and every index is at most [INT_MAX]. *)
Theorem findLastVersionDirectory_scanned (root : dir) (prefix : string) :
  pattern_characters prefix = true ->
  canonical_version_names prefix root = true ->
  (forall path, findLastVersionDirectory root prefix = Returned path ->
     exists entries, In (path, Directory entries) root
                     /\ Spec.version_index prefix path <> None)
  /\ (Spec.version_indices prefix root <> [] ->
      forallb in_int_range (Spec.version_indices prefix root) = true ->
      exists path, findLastVersionDirectory root prefix = Returned path).
Proof.
  intros _ Hcanon. split.
  - intros path. unfold findLastVersionDirectory.
    destruct (findLastVersionIndex root prefix) as [m| |] eqn:E; try discriminate.
    cbn [bind]. intros [= <-].
    apply findLastVersionIndex_returned in E as [Hmax Hrange].
    apply maximum_upper in Hmax as [Hin _].
    pose proof (forallb_in_int_range _ _ Hrange Hin) as Hm.
    apply in_version_indices in Hin as (name & entries & Hin & Hv).
    pose proof Hv as Hv'.
    apply version_index_some in Hv as (ds & -> & Hne & Hd & ->).
    pose proof (canonical_version_names_in _ _ _ _ _ Hcanon Hin eq_refl Hne Hd) as Hc.
    rewrite (to_string_numeral_value ds Hne Hd Hc).
    + exists entries. split; [exact Hin | congruence].
    + unfold INT_MAX in Hm. change (2 ^ 64) with 18446744073709551616. lia.
  - intros Hne Hrange.
    destruct (Spec.maximum (Spec.version_indices prefix root)) as [m|] eqn:Em;
      [|apply maximum_none in Em; contradiction].
    exists (prefix ++ to_string m). unfold findLastVersionDirectory.
    rewrite findLastVersionIndex_eq, ranges_max_int_index, Em, Hrange. reflexivity.
Qed.

Lemma findLastVersionDirectory_scanned_witness :
  exists entries,
    In ("ver12", Directory entries)
       [("ver1", Directory []); ("ver12", Directory [("7.png", File)]); ("ver0", Directory [])]
    /\ Spec.version_index "ver" "ver12" <> None.
Proof.
  apply (proj1 (findLastVersionDirectory_scanned
                  [("ver1", Directory []); ("ver12", Directory [("7.png", File)]);
                   ("ver0", Directory [])] "ver" eq_refl eq_refl)).
  reflexivity.
Defined.

(** C10 as worded fails: a version directory written with leading zeros
    is parsed to its index, and the index rendered back names a directory
    that is not there. *)
Lemma findLastVersionDirectory_scanned_counterexample :
  ~ last_version_directory_exists [("ver007", Directory [("1.png", File)])] "ver".
Proof.
  intros H. destruct (H "ver7" eq_refl) as (entries & [E | []]). discriminate E.
Qed.

(** ** The image index resolver *)

Lemma digits_value_nonneg (s : string) :
  forall acc, 0 <= acc -> 0 <= digits_value acc s.
Proof.
  induction s as [|c s IH]; intros acc Hacc; cbn [digits_value]; [assumption|].
  destruct (isdigit c) eqn:Hc; [|assumption].
  apply IH. pose proof (isdigit_digit_value c Hc). lia.
Qed.

Lemma digits_value_until_dot (s : string) :
  forall acc, digits_value acc (substr_until "." s) = digits_value acc s.
Proof.
  induction s as [|c s IH]; intros acc; cbn [substr_until]; [reflexivity|].
  destruct (Ascii.eqb_spec c ".") as [->|Hc]; [reflexivity|].
  cbn [digits_value]. now rewrite IH.
Qed.

(** [std::stoi] on a string that starts with a digit. *)
Lemma stoi_leading_digit (c : ascii) (s : string) :
  isdigit c = true ->
  stoi (String c s) = int_index (digits_value 0 (String c s)).
Proof.
  intros Hc. unfold stoi.
  rewrite (skip_space_digit c s Hc), (split_sign_digit c s Hc).
  unfold parse_digits. rewrite Hc.
  pose proof (digits_value_nonneg (String c s) 0 (Z.le_refl 0)) as Hn.
  unfold int_index.
  replace (INT_MIN <=? digits_value 0 (String c s)) with true
    by (symmetry; apply Z.leb_le; unfold INT_MIN; lia).
  reflexivity.
Qed.

(** [extractIndex] of [findLastImageIndex] on a name [isImage] accepts. *)
Lemma extractIndex_image (name : string) :
  regex_match name image_matcher = true ->
  (i <- stoi (substr_until "." name) ;; Returned (size_t i))
  = int_index (digits_value 0 name).
Proof.
  intros H. apply image_matcher_spec in H as (ds & c & -> & Hne & Hd & _).
  destruct ds as [|d ds]; [congruence|].
  assert (Hdig : isdigit d = true) by (simpl in Hd; now apply andb_true_iff in Hd).
  cbn [append substr_until].
  destruct (Ascii.eqb_spec d ".") as [->|Hdot]; [discriminate Hdig|].
  rewrite (stoi_leading_digit d _ Hdig).
  rewrite <- (digits_value_until_dot (String d (ds ++ String c "png"))).
  cbn [substr_until]. destruct (Ascii.eqb_spec d ".") as [|_]; [contradiction|].
  apply int_index_bind_size_t. now apply digits_value_nonneg.
Qed.

Lemma image_pipeline (entries : dir) :
  map (fun filename => i <- stoi (substr_until "." filename) ;; Returned (size_t i))
      (filter (fun filename => regex_match filename image_matcher)
              (map filename (filter is_regular_file entries)))
  = map int_index (image_values entries).
Proof.
  unfold image_values. rewrite map_map. apply map_ext_in.
  intros name Hin. apply filter_In in Hin as [_ Hm]. now apply extractIndex_image.
Qed.

Lemma findLastImageIndex_eq (root : dir) (prefix : string) :
  findLastImageIndex root prefix
  = (lastVersionDirectory <- findLastVersionDirectory root prefix ;;
     entries <- directory_iterator root lastVersionDirectory ;;
     ranges_max (map int_index (image_values entries))).
Proof.
  unfold findLastImageIndex.
  destruct (findLastVersionDirectory root prefix) as [d| |]; cbn [bind]; auto.
  destruct (directory_iterator root d) as [entries| |]; cbn [bind]; auto.
  now rewrite image_pipeline.
Qed.

(** Over a version directory without an accepted file the maximum is
    taken on an empty range. *)
Lemma findLastImageIndex_no_match (root : dir) (prefix d : string) (entries : dir) :
  findLastVersionDirectory root prefix = Returned d ->
  lookup d root = Some (Directory entries) ->
  image_values entries = [] ->
  findLastImageIndex root prefix = Undefined.
Proof.
  intros Hd Hl He. rewrite findLastImageIndex_eq, Hd. cbn [bind].
  unfold directory_iterator. rewrite Hl. cbn [bind]. now rewrite He.
Qed.

Lemma image_values_nonneg (entries : dir) (v : Z) :
  In v (image_values entries) -> 0 <= v.
Proof.
  unfold image_values. rewrite in_map_iff. intros (name & <- & _).
  now apply digits_value_nonneg.
Qed.

(** The index the resolver returns is a non-negative [int]. *)
Lemma findLastImageIndex_range (root : dir) (prefix : string) (m : Z) :
  findLastImageIndex root prefix = Returned m -> 0 <= m <= INT_MAX.
Proof.
  rewrite findLastImageIndex_eq.
  destruct (findLastVersionDirectory root prefix) as [d| |]; cbn [bind]; try discriminate.
  destruct (directory_iterator root d) as [entries| |]; cbn [bind]; try discriminate.
  rewrite ranges_max_int_index.
  destruct (Spec.maximum (image_values entries)) as [m'|] eqn:Em; [|discriminate].
  destruct (forallb in_int_range (image_values entries)) eqn:Er; [|discriminate].
  intros [= ->]. apply maximum_upper in Em as [Hin _]. split.
  - now apply (image_values_nonneg entries).
  - now apply (forallb_in_int_range (image_values entries)).
Qed.

Lemma findLastVersionIndex_range (root : dir) (prefix : string) (m : Z) :
  findLastVersionIndex root prefix = Returned m -> 0 <= m <= INT_MAX.
Proof.
  intros H. apply findLastVersionIndex_returned in H as [Hmax Hr].
  apply maximum_upper in Hmax as [Hin _]. split.
  - apply in_version_indices in Hin as (name & entries & _ & Hv).
    apply version_index_some in Hv as (ds & _ & _ & Hd & ->).
    now apply numeral_value_nonneg.
  - now apply (forallb_in_int_range (Spec.version_indices prefix root)).
Qed.

Lemma split_dot_spec (s : string) :
  forall stem ext, Spec.split_dot s = Some (stem, ext) -> s = stem ++ String "." ext.
Proof.
  induction s as [|a s IH]; intros stem ext; simpl; [discriminate|].
  destruct (Ascii.eqb_spec a ".") as [->|_].
  - now intros [= <- <-].
  - destruct (Spec.split_dot s) as [[st ex]|]; [|discriminate].
    intros [= <- <-]. simpl. f_equal. now apply IH.
Qed.

(** The names of the specification's pattern are among those the code
    accepts, with the value the specification gives them. *)
Lemma image_index_accepted (name : string) (v : Z) :
  Spec.image_index name = Some v ->
  regex_match name image_matcher = true /\ digits_value 0 name = v.
Proof.
  unfold Spec.image_index.
  destruct (Spec.split_dot name) as [[stem ext]|] eqn:E; [|discriminate].
  destruct (String.eqb_spec ext "png") as [->|]; [|discriminate].
  intros H. apply numeral_some in H as (Hne & Hd & ->).
  apply split_dot_spec in E. subst name. split.
  - apply image_matcher_spec. exists stem, "."%char. auto.
  - assert (G : forall acc, all_digits stem = true ->
                digits_value acc (stem ++ ".png")
                = acc * 10 ^ Z.of_nat (String.length stem) + Spec.numeral_value stem).
    { clear. induction stem as [|c stem IH]; intros acc Hd.
      - simpl. lia.
      - cbn [all_digits] in Hd. apply andb_true_iff in Hd as [Hc Hd].
        cbn [append digits_value String.length Spec.numeral_value].
        rewrite Hc, (IH _ Hd), Nat2Z.inj_succ, Z.pow_succ_r by lia. ring. }
    rewrite (G 0 Hd). lia.
Qed.

Lemma image_values_cons (name : string) (x : node) (entries : dir) :
  image_values ((name, x) :: entries)
  = if is_regular_file (name, x) && regex_match name image_matcher
    then digits_value 0 name :: image_values entries
    else image_values entries.
Proof.
  unfold image_values. cbn [filter].
  destruct (is_regular_file (name, x)); cbn [andb map filter filename fst]; [|reflexivity].
  destruct (regex_match name image_matcher); reflexivity.
Qed.

(** Where no accepted name lacks the dot, the code reads the indices the
    specification describes. *)
Lemma image_values_dotted (entries : dir) :
  accepted_names_dotted entries = true ->
  image_values entries = Spec.image_indices entries.
Proof.
  induction entries as [|[name x] entries IH]; [reflexivity|].
  unfold accepted_names_dotted. cbn [forallb]. intros H.
  apply andb_true_iff in H as [Hhere Hrest]. specialize (IH Hrest).
  rewrite image_values_cons, IH. cbn [filename fst] in Hhere.
  destruct x as [| |es]; cbn [Spec.image_indices is_regular_file snd andb]; try reflexivity.
  cbn [is_regular_file snd negb orb] in Hhere.
  destruct (Spec.image_index name) as [v|] eqn:E.
  - destruct (image_index_accepted name v E) as [-> ->]. reflexivity.
  - rewrite orb_false_r in Hhere. apply negb_true_iff in Hhere. now rewrite Hhere.
Qed.

(** C3, as amended. In a version directory where every regular file the
    code accepts has the dot before [png], the Image Index Resolver counts
    exactly the regular files named [^[0-9]+\.png$]: it returns the
    maximum numeric stem when every stem is at most [INT_MAX], and leaves
    with [std::out_of_range] when one is larger; names such as [foo.png]
    or [1.jpg] do not count. *)
Theorem findLastImageIndex_maximum (root : dir) (prefix d : string) (entries : dir) :
  findLastVersionDirectory root prefix = Returned d ->
  lookup d root = Some (Directory entries) ->
  accepted_names_dotted entries = true ->
  Spec.image_indices entries <> [] ->
  exists m, Spec.maximum (Spec.image_indices entries) = Some m
            /\ findLastImageIndex root prefix
               = if forallb in_int_range (Spec.image_indices entries)
                 then Returned m
                 else Thrown out_of_range.
Proof.
  intros Hd Hl Hdot Hne. rewrite findLastImageIndex_eq, Hd. cbn [bind].
  unfold directory_iterator. rewrite Hl. cbn [bind].
  rewrite (image_values_dotted _ Hdot), ranges_max_int_index.
  destruct (Spec.maximum (Spec.image_indices entries)) as [m|] eqn:E.
  - exists m. auto.
  - apply maximum_none in E. contradiction.
Qed.

Lemma findLastImageIndex_maximum_witness :
  exists m,
    Spec.maximum
      (Spec.image_indices
         [("1.png", File); ("foo.png", File); ("12.png", File); ("1.jpg", File);
          ("99.png", Directory []); ("3.png", File)]) = Some m
    /\ findLastImageIndex
         [("ver1", Directory [("40.png", File)]);
          ("ver2", Directory [("1.png", File); ("foo.png", File); ("12.png", File);
                              ("1.jpg", File); ("99.png", Directory []); ("3.png", File)])]
         "ver"
       = Returned 12.
Proof.
  destruct (findLastImageIndex_maximum
              [("ver1", Directory [("40.png", File)]);
               ("ver2", Directory [("1.png", File); ("foo.png", File); ("12.png", File);
                                   ("1.jpg", File); ("99.png", Directory []); ("3.png", File)])]
              "ver" "ver2" _ eq_refl eq_refl eq_refl) as (m & Hm & H).
  - vm_compute. discriminate.
  - exists m. split; [exact Hm | reflexivity].
Defined.

(** C3 as worded fails: a stem beyond [INT_MAX] makes the resolver throw
    instead of returning the maximum. *)
Lemma findLastImageIndex_maximum_counterexample :
  ~ returns_maximum_image
      [("ver1", Directory [("1.png", File); ("2147483648.png", File)])] "ver".
Proof.
  intros H.
  destruct (H "ver1" _ eq_refl eq_refl) as (m & _ & E); [vm_compute; discriminate|].
  vm_compute in E. discriminate E.
Qed.

(** The dot of the code's pattern is the any-character atom: a regular
    file [7xpng] is counted, with index 7, next to [1.png], where the
    specification's pattern keeps [1.png] only. *)
Example findLastImageIndex_unescaped_dot :
  findLastImageIndex [("ver1", Directory [("1.png", File); ("7xpng", File)])] "ver"
  = Returned 7
  /\ Spec.image_index "7xpng" = None
  /\ Spec.maximum (Spec.image_indices [("1.png", File); ("7xpng", File)]) = Some 1.
Proof. repeat split; reflexivity. Qed.

(** ** Start-up *)

Lemma lookup_in (name : string) (d : dir) (x : node) :
  lookup name d = Some x -> In (name, x) d.
Proof.
  induction d as [|[n y] d IH]; simpl; [discriminate|].
  destruct (String.eqb_spec n name) as [->|_].
  - intros [= ->]. now left.
  - intros H. right. auto.
Qed.

Lemma in_firstn {A : Type} (n : nat) (l : list A) (x : A) :
  In x (firstn n l) -> In x l.
Proof.
  intros H. rewrite <- (firstn_skipn n l). apply in_or_app. now left.
Qed.

Lemma first_safari_result (ps : list process) :
  (exists pid, first_safari ps = Returned pid /\ In (pid, Some SAFARI_PROCESS_NAME) ps)
  \/ (first_safari ps = Thrown runtime_error
      /\ forall pid, ~ In (pid, Some SAFARI_PROCESS_NAME) ps).
Proof.
  induction ps as [|[pid [name|]] ps IH]; cbn [first_safari].
  - right. split; [reflexivity | intros pid []].
  - destruct (String.eqb_spec SAFARI_PROCESS_NAME name) as [<-|Hn].
    + left. exists pid. split; [reflexivity | now left].
    + destruct IH as [(q & E & Hin) | [E Hnot]].
      * left. exists q. split; [exact E | now right].
      * right. split; [exact E|]. intros q [[= _ H]|H]; [congruence | now apply (Hnot q)].
  - destruct IH as [(q & E & Hin) | [E Hnot]].
    + left. exists q. split; [exact E | now right].
    + right. split; [exact E|]. intros q [H|H]; [discriminate | now apply (Hnot q)].
Qed.

(** Without the target process in the table the lookup throws. *)
Lemma findSafariPID_not_running (ps : list process) :
  ~ running SAFARI_PROCESS_NAME ps -> findSafariPID ps = Thrown runtime_error.
Proof.
  intros Hnot. unfold findSafariPID.
  destruct (first_safari_result (firstn MAX_PROCESS_CHUNK ps)) as [(pid & _ & Hin) | [E _]].
  - exfalso. apply Hnot. exists pid. now apply in_firstn in Hin.
  - exact E.
Qed.

Lemma findLastVersionIndex_thrown (root : dir) (prefix : string) (e : exn) :
  findLastVersionIndex root prefix = Thrown e -> e = out_of_range.
Proof.
  rewrite findLastVersionIndex_eq, ranges_max_int_index.
  destruct (Spec.maximum _); [|discriminate].
  destruct (forallb _ _); [discriminate | congruence].
Qed.

Lemma findLastImageIndex_thrown (root : dir) (prefix : string) (e : exn) :
  findLastImageIndex root prefix = Thrown e -> e <> runtime_error.
Proof.
  rewrite findLastImageIndex_eq. unfold findLastVersionDirectory.
  destruct (findLastVersionIndex root prefix) as [v| e' |] eqn:Ev; cbn [bind].
  - unfold directory_iterator.
    destruct (lookup _ root) as [[| |entries]|]; cbn [bind]; try (intros [= <-]; discriminate).
    rewrite ranges_max_int_index.
    destruct (Spec.maximum _); [|discriminate].
    destruct (forallb _ _); [discriminate | intros [= <-]; discriminate].
  - apply findLastVersionIndex_thrown in Ev as ->. intros [= <-]. discriminate.
  - discriminate.
Qed.

(** The name of the next version directory is not that of a directory
    under the root. *)
Lemma next_version_unused (root : dir) (prefix : string) (v : Z) (entries : dir) :
  findLastVersionIndex root prefix = Returned v ->
  ~ In (prefix ++ to_string (v + 1), Directory entries) root.
Proof.
  intros Hv Hin. pose proof (findLastVersionIndex_range _ _ _ Hv) as Hr.
  apply findLastVersionIndex_returned in Hv as [Hmax _].
  apply maximum_upper in Hmax as [_ Hle].
  assert (Hnext : In (v + 1) (Spec.version_indices prefix root)).
  { apply in_version_indices. exists (prefix ++ to_string (v + 1)), entries.
    split; [exact Hin|]. apply version_index_to_string.
    unfold INT_MAX in Hr. change (2 ^ 64) with 18446744073709551616. lia. }
  specialize (Hle _ Hnext). lia.
Qed.

Lemma size_t_succ_index (v : Z) : 0 <= v <= INT_MAX -> size_t (v + 1) = v + 1.
Proof.
  intros H. unfold INT_MAX in H. apply size_t_small; [lia|].
  change (2 ^ 64) with 18446744073709551616. lia.
Qed.

(** What [create_directory] answers for a name no directory has. *)
Lemma create_directory_unused (permitted : bool) (root : dir) (name : string) :
  (forall entries, ~ In (name, Directory entries) root) ->
  create_directory permitted root name
  = (Returned true, new_directory root name)
  \/ create_directory permitted root name = (Thrown filesystem_error, root).
Proof.
  intros Hfree. unfold create_directory.
  destruct (lookup name root) as [[| |entries]|] eqn:E; auto.
  - apply lookup_in in E. now apply Hfree in E.
  - destruct permitted; auto.
Qed.

(** C6. Once both resolvers have returned, start-up makes exactly one
    directory, named prefix + (1 + the maximum existing version index);
    no directory under the root has that name; and when the creation does
    not succeed the process aborts, with nothing created. *)
Theorem startup_creates_next_version (w : world) (v m : Z) :
  findLastVersionIndex (assets w) versionDirectoryName = Returned v ->
  findLastImageIndex (assets w) versionDirectoryName = Returned m ->
  let name := versionDirectoryName ++ to_string (v + 1) in
  (forall entries, ~ In (name, Directory entries) (assets w))
  /\ (fst (create_directory (mkdir_permitted w) (assets w) name) = Returned true ->
      startup_disk (startup w) = new_directory (assets w) name
      /\ forall disk st, startup w = Started disk st -> newVersionPath st = name)
  /\ (fst (create_directory (mkdir_permitted w) (assets w) name) <> Returned true ->
      forall ticks, exists f, main w ticks = Aborted f (assets w)).
Proof.
  intros Hv Hm name.
  pose proof (findLastVersionIndex_range _ _ _ Hv) as Hr.
  assert (Hfree : forall entries, ~ In (name, Directory entries) (assets w))
    by (intros entries; now apply next_version_unused).
  split; [exact Hfree|].
  unfold main, startup. rewrite Hv, Hm, (size_t_succ_index v Hr). fold name.
  destruct (create_directory_unused (mkdir_permitted w) (assets w) name Hfree) as [E|E];
    rewrite E; cbn [fst].
  - split; [|congruence]. intros _.
    destruct (findSafariPID (processes w)) as [pid| |]; cbn [startup_disk].
    + split; [reflexivity | now intros disk st [= <- <-]].
    + split; [reflexivity | discriminate].
    + split; [reflexivity | discriminate].
  - split; [discriminate|]. intros _ ticks. cbn [failure_of]. eauto.
Qed.

Lemma startup_creates_next_version_witness :
  (forall entries,
      ~ In ("ver3", Directory entries)
           [("ver1", Directory [("1.png", File)]); ("ver2", Directory [("2.png", File)])])
  /\ startup_disk
       (startup {| assets := [("ver1", Directory [("1.png", File)]);
                              ("ver2", Directory [("2.png", File)])];
                   processes := [(501, Some "Safari")];
                   mkdir_permitted := true |})
     = [("ver1", Directory [("1.png", File)]); ("ver2", Directory [("2.png", File)]);
        ("ver3", Directory [])].
Proof.
  destruct (startup_creates_next_version
              {| assets := [("ver1", Directory [("1.png", File)]);
                            ("ver2", Directory [("2.png", File)])];
                 processes := [(501, Some "Safari")];
                 mkdir_permitted := true |} 2 2 eq_refl eq_refl) as (Hfree & Hmade & _).
  split; [exact Hfree|]. exact (proj1 (Hmade eq_refl)).
Defined.

(** C5, as amended. When the target process is not running the process
    aborts during start-up, but the process table is looked up after the
    new version directory is made: at the process-not-found failure the
    new directory is on disk; and that failure is the outcome whenever
    the resolvers return and the directory can be made. *)
Theorem process_lookup_follows_directory (w : world) :
  ~ running SAFARI_PROCESS_NAME (processes w) ->
  forall ticks,
    (exists f disk,
        main w ticks = Aborted f disk
        /\ (f = Uncaught runtime_error ->
            exists v, findLastVersionIndex (assets w) versionDirectoryName = Returned v
                      /\ disk = new_directory (assets w)
                                  (versionDirectoryName ++ to_string (v + 1))))
    /\ (forall v m,
          findLastVersionIndex (assets w) versionDirectoryName = Returned v ->
          findLastImageIndex (assets w) versionDirectoryName = Returned m ->
          fst (create_directory (mkdir_permitted w) (assets w)
                 (versionDirectoryName ++ to_string (v + 1))) = Returned true ->
          main w ticks
          = Aborted (Uncaught runtime_error)
              (new_directory (assets w) (versionDirectoryName ++ to_string (v + 1)))).
Proof.
  intros Hnot ticks. pose proof (findSafariPID_not_running _ Hnot) as Hpid.
  unfold main, startup.
  destruct (findLastVersionIndex (assets w) versionDirectoryName) as [v|e|] eqn:Ev.
  - pose proof (findLastVersionIndex_range _ _ _ Ev) as Hr.
    destruct (findLastImageIndex (assets w) versionDirectoryName) as [m|e|] eqn:Em.
    + rewrite (size_t_succ_index v Hr).
      destruct (create_directory_unused (mkdir_permitted w) (assets w)
                  (versionDirectoryName ++ to_string (v + 1))) as [E|E];
        [intros entries; now apply next_version_unused | |]; rewrite E, ?Hpid;
        cbn [failure_of fst].
      * split; [|now intros v' m' [= <-] _ _].
        do 2 eexists. split; [reflexivity|]. intros _. now exists v.
      * split; [|intros v' m' [= <-] _ Hc; rewrite E in Hc; discriminate Hc].
        do 2 eexists. split; [reflexivity | discriminate].
    + cbn [failure_of]. split; [|discriminate].
      do 2 eexists. split; [reflexivity|]. intros [= ->].
      now apply findLastImageIndex_thrown in Em.
    + cbn [failure_of]. split; [|discriminate].
      do 2 eexists. split; [reflexivity | discriminate].
  - cbn [failure_of]. split; [|discriminate].
    do 2 eexists. split; [reflexivity|]. intros [= ->].
    apply findLastVersionIndex_thrown in Ev. discriminate.
  - cbn [failure_of]. split; [|discriminate].
    do 2 eexists. split; [reflexivity | discriminate].
Qed.

Lemma not_running_example : ~ running SAFARI_PROCESS_NAME [(1, Some "launchd"); (77, None)].
Proof. intros (pid & [E | [E | []]]); discriminate E. Qed.

Lemma process_lookup_follows_directory_witness :
  main {| assets := [("ver1", Directory [("1.png", File)])];
          processes := [(1, Some "launchd"); (77, None)];
          mkdir_permitted := true |} []
  = Aborted (Uncaught runtime_error)
      [("ver1", Directory [("1.png", File)]); ("ver2", Directory [])].
Proof.
  exact (proj2 (process_lookup_follows_directory
                  {| assets := [("ver1", Directory [("1.png", File)])];
                     processes := [(1, Some "launchd"); (77, None)];
                     mkdir_permitted := true |}
                  not_running_example []) 1 1 eq_refl eq_refl eq_refl).
Defined.

(** C5 as worded fails: with [ver1/1.png] on disk and no Safari in the
    process table, [ver2] has been made when the process aborts. *)
Lemma aborts_before_any_directory_counterexample :
  ~ aborts_before_any_directory
      {| assets := [("ver1", Directory [("1.png", File)])];
         processes := [(1, Some "launchd"); (77, None)];
         mkdir_permitted := true |}.
Proof.
  intros H. destruct (H not_running_example []) as (f & E).
  vm_compute in E. discriminate E.
Qed.

(** ** The capture loop *)

Lemma find_window_none (pid : Z) (ws : list window) :
  find_window pid ws = None <-> ~ target_window_present pid ws.
Proof.
  unfold target_window_present. induction ws as [|w ws IH]; cbn [find_window].
  - split; [intros _ (win & [] & _) | reflexivity].
  - assert (Hskip : (owner w = pid -> title w <> Some (Some expected_title)) ->
              (find_window pid ws = None <->
               ~ (exists win, In win (w :: ws) /\ owner win = pid
                              /\ title win = Some (Some expected_title)))).
    { intros Hw. rewrite IH. split.
      - intros Hn (win & [<-|Hin] & Ho & Ht); [now apply Hw | apply Hn; eauto].
      - intros Hn (win & Hin & Ho & Ht). apply Hn. exists win. split; [now right | auto]. }
    destruct (Z.eqb_spec (owner w) pid) as [Ho|Ho]; cbn [negb].
    + destruct (title w) as [[name|]|] eqn:Et.
      * destruct (String.eqb_spec name expected_title) as [->|Hn].
        -- split; [discriminate|]. intros H. exfalso. apply H.
           exists w. split; [now left | auto].
        -- apply Hskip. intros _ [= E]. contradiction.
      * apply Hskip. intros _. discriminate.
      * apply Hskip. intros _. discriminate.
    + apply Hskip. intros E. contradiction.
Qed.

Lemma find_window_none_iff (pid : Z) (ws : list window) :
  target_window_present pid ws <-> find_window pid ws <> None.
Proof.
  split.
  - intros H E. now apply find_window_none in E.
  - intros H. destruct (find_window pid ws) as [win|] eqn:E; [|contradiction].
    clear H. revert E. unfold target_window_present.
    induction ws as [|w ws IH]; cbn [find_window]; [discriminate|].
    assert (Hrest : find_window pid ws = Some win ->
              exists win0, In win0 (w :: ws) /\ owner win0 = pid
                           /\ title win0 = Some (Some expected_title)).
    { intros H. destruct (IH H) as (win0 & Hin & Ho). exists win0. split; [now right | auto]. }
    destruct (Z.eqb_spec (owner w) pid) as [Ho|Ho]; cbn [negb]; [|exact Hrest].
    destruct (title w) as [[name|]|] eqn:Et; try exact Hrest.
    destruct (String.eqb_spec name expected_title) as [->|Hn]; [|exact Hrest].
    intros _. exists w. split; [now left | auto].
Qed.

Lemma find_window_some (pid : Z) (ws : list window) :
  target_window_present pid ws -> exists win, find_window pid ws = Some win.
Proof.
  intros H. destruct (find_window pid ws) as [win|] eqn:E; [eauto|].
  apply find_window_none in E. contradiction.
Qed.

Lemma capture_loop_app (a b : list tick) :
  forall st disk st1 disk1 l,
    capture_loop st disk a = InLoop st1 disk1 l ->
    capture_loop st disk (a ++ b) = prepend l (capture_loop st1 disk1 b).
Proof.
  induction a as [|t a IH]; intros st disk st1 disk1 l; cbn [capture_loop app].
  - now intros [= <- <- <-].
  - destruct (iteration st disk t) as [[st' disk'] e].
    destruct e as [|i saved|i]; try discriminate.
    all: destruct (keyCode st' =? 113); [discriminate|].
    all: destruct (capture_loop st' disk' a) as [c d l' | f d | st2 d l' | f d l'] eqn:E;
      cbn [logged]; try discriminate.
    all: intros [= <- <- <-]; now rewrite (IH _ _ _ _ _ E).
Qed.

Lemma main_app (w : world) (pre post : list tick) (st : loop_state) (disk : dir)
      (log : list event) :
  main w pre = InLoop st disk log ->
  main w (pre ++ post) = prepend log (capture_loop st disk post).
Proof.
  unfold main. destruct (startup w) as [disk0 st0 | f disk0]; [|discriminate].
  apply capture_loop_app.
Qed.

Lemma prepend_inloop (l l' : list event) (st : loop_state) (disk : dir) :
  prepend l (InLoop st disk l') = InLoop st disk (l ++ l').
Proof. induction l as [|e l IH]; cbn [prepend fold_right app]; [reflexivity|]. fold (prepend l (InLoop st disk l')). now rewrite IH. Qed.

Lemma prepend_exited (l l' : list event) (c : Z) (disk : dir) :
  prepend l (Exited c disk l') = Exited c disk (l ++ l').
Proof. induction l as [|e l IH]; cbn [prepend fold_right app]; [reflexivity|]. fold (prepend l (Exited c disk l')). now rewrite IH. Qed.

Lemma prepend_logged (l : list event) (e : event) (r : run) :
  prepend l (logged e r) = prepend (l ++ [e]) r.
Proof. unfold prepend. now rewrite fold_right_app. Qed.



Lemma capture_loop_not_aborted (ticks : list tick) :
  forall st disk f d, capture_loop st disk ticks <> Aborted f d.
Proof.
  induction ticks as [|t ticks IH]; intros st disk f d; cbn [capture_loop]; [discriminate|].
  destruct (iteration st disk t) as [[st' disk'] e].
  specialize (IH st' disk' f d).
  destruct e as [|i saved|i]; try discriminate.
  all: destruct (keyCode st' =? 113); [discriminate|].
  all: destruct (capture_loop st' disk' ticks); cbn [logged]; congruence.
Qed.

(** At the head of the loop the last key read is not the quit key. *)
Lemma capture_loop_key (a : list tick) :
  forall st disk st1 disk1 l,
    keyCode st <> 113 ->
    capture_loop st disk a = InLoop st1 disk1 l ->
    keyCode st1 <> 113.
Proof.
  induction a as [|t a IH]; intros st disk st1 disk1 l Hk; cbn [capture_loop].
  - now intros [= <- _ _].
  - destruct (iteration st disk t) as [[st' disk'] e].
    destruct e as [|i saved|i]; try discriminate.
    all: destruct (Z.eqb_spec (keyCode st') 113) as [|Hk']; [discriminate|].
    all: destruct (capture_loop st' disk' a) as [c d l' | f d | st2 d l' | f d l'] eqn:E;
      cbn [logged]; try discriminate.
    all: intros [= <- _ _]; exact (IH _ _ _ _ _ Hk' E).
Qed.

Lemma startup_key (w : world) (disk : dir) (st : loop_state) :
  startup w = Started disk st -> keyCode st = -1.
Proof.
  unfold startup.
  destruct (findLastVersionIndex _ _); try discriminate.
  destruct (findLastImageIndex _ _); try discriminate.
  destruct (create_directory _ _ _) as [[[]| |] d]; try discriminate.
  destruct (findSafariPID _); try discriminate.
  now intros [= _ <-].
Qed.

Lemma main_key (w : world) (pre : list tick) (st : loop_state) (disk : dir)
      (log : list event) :
  main w pre = InLoop st disk log -> keyCode st <> 113.
Proof.
  unfold main. destruct (startup w) as [disk0 st0 | f disk0] eqn:E; [|discriminate].
  apply capture_loop_key. rewrite (startup_key _ _ _ E). discriminate.
Qed.

(** C7. After a capture whose preview has returned (the target window was
    found and its screenshot is not [NULL]), while the operator's key is
    awaited: key code 113 ends the loop and the process returns 0; any
    other key code leaves the process in the loop, which goes on with its
    next iteration. *)
Theorem quit_key_terminates (w : world) (pre : list tick) (st : loop_state)
        (disk : dir) (log : list event) (t : tick) (rest : list tick) :
  main w pre = InLoop st disk log ->
  target_window_present (safariPID st) (windows t) ->
  screenshot_null t = false ->
  (key t = 113 ->
   exists disk' e, main w (pre ++ t :: rest) = Exited 0 disk' (log ++ [e]))
  /\ (key t <> 113 ->
      exists st' disk' e,
        main w (pre ++ [t]) = InLoop st' disk' (log ++ [e])
        /\ main w (pre ++ t :: rest) = prepend (log ++ [e]) (capture_loop st' disk' rest)).
Proof.
  intros Hpre Hwin Hnull. apply find_window_some in Hwin as (win & Hwin).
  rewrite !(main_app _ _ _ _ _ _ Hpre). cbn [capture_loop].
  unfold iteration. rewrite Hwin, Hnull. cbn [keyCode]. split; intros Hk.
  - rewrite Hk. cbn. rewrite prepend_exited. eauto.
  - destruct (Z.eqb_spec (key t) 113) as [|_]; [contradiction|].
    cbn [logged]. do 3 eexists.
    rewrite prepend_inloop, prepend_logged. split; reflexivity.
Qed.

Lemma sample_window_present :
  target_window_present 77 (windows (sample_tick true 97)).
Proof. exists sample_window. repeat split. right. now left. Qed.

Lemma quit_key_terminates_witness :
  exists disk' e,
    main sample_world ([] ++ sample_tick true 113 :: [sample_tick true 97])
    = Exited 0 disk' ([] ++ [e]).
Proof.
  apply (proj1 (quit_key_terminates sample_world [] _ _ _ (sample_tick true 113)
                  [sample_tick true 97] eq_refl sample_window_present eq_refl)).
  reflexivity.
Defined.

(** C8. An iteration in which no window of the target process has
    exactly the expected title leaves the image index, and the rest of
    the loop's state, as it was, and the process stays in the loop: the
    next iteration starts from the same state. *)
Theorem no_window_no_progress (w : world) (pre : list tick) (st : loop_state)
        (disk : dir) (log : list event) (t : tick) (rest : list tick) :
  main w pre = InLoop st disk log ->
  ~ target_window_present (safariPID st) (windows t) ->
  imageIndex (fst (fst (iteration st disk t))) = imageIndex st
  /\ main w (pre ++ [t]) = InLoop st disk (log ++ [NoWindow])
  /\ main w (pre ++ t :: rest)
     = prepend (log ++ [NoWindow]) (capture_loop st disk rest).
Proof.
  intros Hpre Hwin. apply find_window_none in Hwin.
  pose proof (main_key _ _ _ _ _ Hpre) as Hk.
  rewrite !(main_app _ _ _ _ _ _ Hpre). cbn [capture_loop].
  unfold iteration. rewrite Hwin. cbn [fst].
  destruct (Z.eqb_spec (keyCode st) 113) as [|_]; [contradiction|].
  cbn [logged]. rewrite prepend_inloop, prepend_logged. auto.
Qed.

Lemma idle_tick_no_window : ~ target_window_present 77 (windows idle_tick).
Proof. apply find_window_none. reflexivity. Qed.

Lemma no_window_no_progress_witness :
  main sample_world ([sample_tick true 97] ++ [idle_tick])
  = InLoop {| newVersionPath := "ver2"; imageIndex := 3; safariPID := 77; keyCode := 97 |}
      [("ver1", Directory [("1.png", File); ("2.png", File)]);
       ("ver2", Directory [("3.png", File)])]
      ([Capture 3 true] ++ [NoWindow]).
Proof.
  exact (proj1 (proj2 (no_window_no_progress sample_world [sample_tick true 97]
                         _ _ _ idle_tick [] eq_refl idle_tick_no_window))).
Defined.

(** *** The counter and the log *)

Lemma iteration_cases (st : loop_state) (disk : dir) (t : tick) :
  (find_window (safariPID st) (windows t) = None
   /\ iteration st disk t = (st, disk, NoWindow))
  \/ (find_window (safariPID st) (windows t) <> None
      /\ screenshot_null t = false
      /\ iteration st disk t
         = ({| newVersionPath := newVersionPath st;
               imageIndex := size_t (imageIndex st + 1);
               safariPID := safariPID st;
               keyCode := key t |},
            (if SaveCGImageToPNG t
             then write_file disk (newVersionPath st)
                    (to_string (size_t (imageIndex st + 1)) ++ ".png")
             else disk),
            Capture (size_t (imageIndex st + 1)) (SaveCGImageToPNG t)))
  \/ (find_window (safariPID st) (windows t) <> None
      /\ screenshot_null t = true
      /\ iteration st disk t
         = ({| newVersionPath := newVersionPath st;
               imageIndex := size_t (imageIndex st + 1);
               safariPID := safariPID st;
               keyCode := keyCode st |},
            disk,
            NullCapture (size_t (imageIndex st + 1)))).
Proof.
  unfold iteration, SaveCGImageToPNG.
  destruct (find_window (safariPID st) (windows t)).
  - right. destruct (screenshot_null t).
    + right. repeat split. discriminate.
    + left. repeat split. discriminate.
  - left. split; reflexivity.
Qed.

Lemma log_of_logged (e : event) (r : run) :
  (forall f d, r <> Aborted f d) -> log_of (logged e r) = e :: log_of r.
Proof.
  intros Hr. destruct r as [c d l | f d | st d l | f d l]; try reflexivity.
  now destruct (Hr f d).
Qed.

Lemma disk_of_logged (e : event) (r : run) : disk_of (logged e r) = disk_of r.
Proof. now destruct r. Qed.

Lemma capture_loop_cons (st : loop_state) (disk : dir) (t : tick) (rest : list tick)
      (st' : loop_state) (disk' : dir) (e : event) :
  iteration st disk t = (st', disk', e) ->
  match e with NullCapture _ => False | _ => True end ->
  (keyCode st' = 113 /\ capture_loop st disk (t :: rest) = Exited 0 disk' [e])
  \/ (keyCode st' <> 113
      /\ capture_loop st disk (t :: rest) = logged e (capture_loop st' disk' rest)
      /\ log_of (capture_loop st disk (t :: rest)) = e :: log_of (capture_loop st' disk' rest)
      /\ disk_of (capture_loop st disk (t :: rest)) = disk_of (capture_loop st' disk' rest)).
Proof.
  intros E Hlive. cbn [capture_loop]. rewrite E.
  destruct e as [|i saved|i]; [| |contradiction].
  all: destruct (Z.eqb_spec (keyCode st') 113) as [Hk|Hk]; [left; auto|].
  all: right; rewrite log_of_logged, disk_of_logged; auto.
  all: intros f d; apply capture_loop_not_aborted.
Qed.

(** An iteration on a [NULL] screenshot is the last one. *)
Lemma capture_loop_null (st : loop_state) (disk : dir) (t : tick) (rest : list tick)
      (st' : loop_state) (disk' : dir) (i : Z) :
  iteration st disk t = (st', disk', NullCapture i) ->
  capture_loop st disk (t :: rest) = Crashed PreviewCrash disk' [NullCapture i].
Proof. intros E. cbn [capture_loop]. now rewrite E. Qed.

(** Without wrap-around, the captures of a run take the indices after
    the counter's value, in increasing order. *)
Lemma loop_indices (a : list tick) :
  forall st disk,
    0 <= imageIndex st ->
    imageIndex st + Z.of_nat (List.length a) < 2 ^ 64 ->
    (forall i saved, In (Capture i saved) (log_of (capture_loop st disk a)) ->
                     imageIndex st < i <= imageIndex st + Z.of_nat (List.length a))
    /\ (forall st' disk' l, capture_loop st disk a = InLoop st' disk' l ->
                            imageIndex st <= imageIndex st' <= imageIndex st + Z.of_nat (List.length a)).
Proof.
  induction a as [|t a IH]; intros st disk H0 Hb.
  - cbn. split; [intros i saved [] | intros st' disk' l [= <- _ _]; lia].
  - cbn [List.length] in *. rewrite Nat2Z.inj_succ in *.
    destruct (iteration_cases st disk t) as [[_ E] | [(_ & _ & E) | (_ & _ & E)]];
      [destruct (capture_loop_cons _ _ _ a _ _ _ E I) as [[Hk Ec] | (Hk & Ec & El & _)]
      |destruct (capture_loop_cons _ _ _ a _ _ _ E I) as [[Hk Ec] | (Hk & Ec & El & _)]
      |pose proof (capture_loop_null _ _ _ a _ _ _ E) as Ec].
    + rewrite Ec. cbn [log_of]. split; [|discriminate].
      intros i saved [H | []]. discriminate H.
    + destruct (IH st disk H0 ltac:(lia)) as [IH1 IH2]. rewrite El, Ec. split.
      * intros i saved [H | H]; [discriminate H|]. specialize (IH1 _ _ H). lia.
      * intros st' disk' l H.
        destruct (capture_loop st disk a) as [c d l' | f d | st2 d l' | f d l'] eqn:Ea;
          cbn [logged] in H; try discriminate H.
        injection H as <- _ _. specialize (IH2 _ _ _ eq_refl). lia.
    + rewrite Ec. cbn [log_of]. split; [|discriminate].
      intros i saved [[= <- _] | []]. rewrite size_t_small; lia.
    + match type of Ec with
      | _ = logged _ (capture_loop ?s ?d a) =>
          destruct (IH s d) as [IH1 IH2]; cbn [imageIndex];
          try (rewrite size_t_small; lia)
      end.
      rewrite El, Ec. cbn [imageIndex] in IH1, IH2.
      rewrite size_t_small in IH1, IH2 |- * by lia. split.
      * intros i saved [[= <- _] | H]; [lia|]. specialize (IH1 _ _ H). lia.
      * intros st' disk' l H.
        match type of H with
        | logged _ ?r = _ => destruct r as [c d l' | f d | st2 d l' | f d l'] eqn:Ea
        end; cbn [logged] in H; try discriminate H.
        injection H as <- _ _. specialize (IH2 _ _ _ eq_refl). lia.
    + rewrite Ec. cbn [log_of]. split; [|discriminate].
      intros i saved [H | []]. discriminate H.
Qed.

Lemma first_capture_index (ticks : list tick) :
  forall st disk i saved,
    first_capture (log_of (capture_loop st disk ticks)) = Some (i, saved) ->
    i = size_t (imageIndex st + 1).
Proof.
  induction ticks as [|t ticks IH]; intros st disk i saved; [discriminate|].
  destruct (iteration_cases st disk t) as [[_ E] | [(_ & _ & E) | (_ & _ & E)]];
    [destruct (capture_loop_cons _ _ _ ticks _ _ _ E I) as [[Hk Ec] | (Hk & Ec & El & _)]
    |destruct (capture_loop_cons _ _ _ ticks _ _ _ E I) as [[Hk Ec] | (Hk & Ec & El & _)]
    |pose proof (capture_loop_null _ _ _ ticks _ _ _ E) as Ec].
  - rewrite Ec. discriminate.
  - rewrite El. cbn [first_capture]. apply IH.
  - rewrite Ec. cbn [log_of first_capture]. now intros [= <- _].
  - rewrite El. cbn [first_capture]. now intros [= <- _].
  - rewrite Ec. cbn [log_of first_capture]. now intros [= <- _].
Qed.

(** What start-up has established when the loop is entered. *)
Lemma startup_started (w : world) (disk : dir) (st : loop_state) :
  startup w = Started disk st ->
  exists v m pid,
    findLastVersionIndex (assets w) versionDirectoryName = Returned v
    /\ findLastImageIndex (assets w) versionDirectoryName = Returned m
    /\ lookup (versionDirectoryName ++ to_string (v + 1)) (assets w) = None
    /\ disk = new_directory (assets w) (versionDirectoryName ++ to_string (v + 1))
    /\ st = {| newVersionPath := versionDirectoryName ++ to_string (v + 1);
               imageIndex := m;
               safariPID := pid;
               keyCode := -1 |}.
Proof.
  unfold startup.
  destruct (findLastVersionIndex _ _) as [v| |] eqn:Ev; try discriminate.
  destruct (findLastImageIndex _ _) as [m| |] eqn:Em; try discriminate.
  rewrite (size_t_succ_index v (findLastVersionIndex_range _ _ _ Ev)).
  unfold create_directory.
  destruct (lookup _ (assets w)) as [[| |entries]|] eqn:El; try discriminate.
  destruct (mkdir_permitted w); try discriminate.
  destruct (findSafariPID _) as [pid| |]; try discriminate.
  intros [= <- <-]. exists v, m, pid. auto.
Qed.


(** *** The files of the new version directory *)

Lemma lookup_app_none (name : string) (base : dir) (x : node) :
  lookup name base = None -> lookup name (base ++ [(name, x)])%list = Some x.
Proof.
  induction base as [|[n y] base IH]; cbn [lookup app].
  - now rewrite String.eqb_refl.
  - destruct (String.eqb n name); [discriminate | exact IH].
Qed.

Lemma write_file_new_directory (base : dir) (d f : string) (es : dir) :
  lookup d base = None ->
  write_file (base ++ [(d, Directory es)])%list d f
  = (base ++ [(d, Directory (add_file es f))])%list.
Proof.
  induction base as [|[n y] base IH]; cbn [lookup app write_file].
  - now rewrite String.eqb_refl.
  - destruct (String.eqb n d) eqn:E; [discriminate|]. intros H.
    destruct y; rewrite ?E, (IH H); reflexivity.
Qed.

Lemma add_file_in (es : dir) (f : string) :
  all_files es ->
  In (f, File) (add_file es f) /\ all_files (add_file es f) /\ incl es (add_file es f).
Proof.
  intros Hall. unfold add_file. destruct (lookup f es) as [x|] eqn:E.
  - apply lookup_in in E. pose proof E as E'.
    unfold all_files in Hall. rewrite Forall_forall in Hall.
    apply Hall in E'. cbn [snd] in E'. subst x.
    repeat split; [exact E | now apply Forall_forall | apply incl_refl].
  - repeat split.
    + apply in_or_app. right. now left.
    + apply Forall_app. split; [exact Hall | now constructor].
    + now apply incl_appl, incl_refl.
Qed.

(** The loop only adds regular files to the directory made at start-up,
    and a first capture that was saved is among them. *)
Lemma loop_disk (base : dir) (d : string) (ticks : list tick) :
  lookup d base = None ->
  forall st es,
    newVersionPath st = d -> all_files es ->
    exists es',
      disk_of (capture_loop st (base ++ [(d, Directory es)])%list ticks)
      = (base ++ [(d, Directory es')])%list
      /\ all_files es' /\ incl es es'
      /\ (forall i,
            first_capture (log_of (capture_loop st (base ++ [(d, Directory es)])%list ticks))
            = Some (i, true) ->
            In (to_string i ++ ".png", File) es').
Proof.
  intros Hd. induction ticks as [|t ticks IH]; intros st es Hp Hall.
  - exists es. cbn. repeat split; [assumption | apply incl_refl | discriminate].
  - destruct (iteration_cases st (base ++ [(d, Directory es)])%list t)
      as [[_ E] | [(_ & _ & E) | (_ & _ & E)]].
    + destruct (capture_loop_cons _ _ _ ticks _ _ _ E I) as [[Hk Ec] | (Hk & Ec & El & Ed)].
      * exists es. rewrite Ec. cbn.
        repeat split; [assumption | apply incl_refl | discriminate].
      * rewrite El, Ed. cbn [first_capture]. now apply IH.
    + rewrite Hp in E.
      set (i0 := size_t (imageIndex st + 1)) in *.
      set (es1 := if SaveCGImageToPNG t then add_file es (to_string i0 ++ ".png") else es).
      assert (Hdisk : (if SaveCGImageToPNG t
                       then write_file (base ++ [(d, Directory es)])%list d (to_string i0 ++ ".png")
                       else (base ++ [(d, Directory es)])%list)
                      = (base ++ [(d, Directory es1)])%list).
      { unfold es1. destruct (SaveCGImageToPNG t); [|reflexivity].
        now apply write_file_new_directory. }
      rewrite Hdisk in E.
      assert (H1 : all_files es1 /\ incl es es1
                   /\ (SaveCGImageToPNG t = true -> In (to_string i0 ++ ".png", File) es1)).
      { unfold es1. destruct (SaveCGImageToPNG t).
        - destruct (add_file_in es (to_string i0 ++ ".png") Hall) as (Hin & Ha & Hi). auto.
        - repeat split; [assumption | apply incl_refl | discriminate]. }
      destruct H1 as (Hall1 & Hincl1 & Hin1).
      destruct (capture_loop_cons _ _ _ ticks _ _ _ E I) as [[Hk Ec] | (Hk & Ec & El & Ed)].
      * exists es1. rewrite Ec. cbn [disk_of log_of first_capture].
        repeat split; auto. intros i [= <- Hs]. auto.
      * rewrite El, Ed. cbn [first_capture].
        match goal with
        | |- context [capture_loop ?s _ ticks] =>
            destruct (IH s es1 eq_refl Hall1) as (es' & Hd' & Ha' & Hi' & _)
        end.
        exists es'. repeat split; auto.
        -- now apply incl_tran with es1.
        -- intros i [= <- Hs]. auto.
    + rewrite (capture_loop_null _ _ _ ticks _ _ _ E). exists es.
      cbn [disk_of log_of first_capture].
      repeat split; [assumption | apply incl_refl | discriminate].
Qed.

(** C4, as amended. The image counter goes on from the prior run: the
    starting index M is read from the latest version directory as it is
    before the new one is made, and the first capture of the run takes
    index M + 1; when that capture is saved, it is the file [M+1.png] of
    the new version directory. *)
Theorem first_capture_continues_counter (w : world) (ticks : list tick)
        (v m i : Z) (saved : bool) :
  findLastVersionIndex (assets w) versionDirectoryName = Returned v ->
  findLastImageIndex (assets w) versionDirectoryName = Returned m ->
  first_capture (log_of (main w ticks)) = Some (i, saved) ->
  i = m + 1
  /\ (saved = true ->
      has_file (disk_of (main w ticks))
               (versionDirectoryName ++ to_string (v + 1))
               (to_string (m + 1) ++ ".png")).
Proof.
  intros Hv Hm. unfold main.
  destruct (startup w) as [disk st | f disk] eqn:E; [|discriminate].
  apply startup_started in E as (v' & m' & pid & Hv' & Hm' & Hfree & -> & ->).
  rewrite Hv in Hv'. rewrite Hm in Hm'. injection Hv' as <-. injection Hm' as <-.
  pose proof (findLastImageIndex_range _ _ _ Hm) as Hr.
  intros Hfirst. pose proof (first_capture_index _ _ _ _ _ Hfirst) as Hi.
  cbn [imageIndex] in Hi. rewrite size_t_succ_index in Hi by assumption.
  split; [exact Hi|]. intros ->. subst i.
  unfold new_directory in *.
  destruct (loop_disk (assets w) (versionDirectoryName ++ to_string (v + 1)) ticks Hfree
              {| newVersionPath := versionDirectoryName ++ to_string (v + 1);
                 imageIndex := m; safariPID := pid; keyCode := -1 |}
              [] eq_refl (Forall_nil _)) as (es' & Hd & _ & _ & Hin).
  exists es'. rewrite Hd. split; [now apply lookup_app_none | now apply Hin].
Qed.

Lemma first_capture_continues_counter_witness :
  3 = 2 + 1
  /\ has_file (disk_of (main sample_world [idle_tick; sample_tick true 97; sample_tick true 113]))
              (versionDirectoryName ++ to_string (1 + 1))
              (to_string (2 + 1) ++ ".png").
Proof.
  destruct (first_capture_continues_counter sample_world
              [idle_tick; sample_tick true 97; sample_tick true 113]
              1 2 3 true eq_refl eq_refl eq_refl) as [Hi Hfile].
  split; [exact Hi | exact (Hfile eq_refl)].
Defined.

(** C4 as worded fails: when the first capture of a run is not saved, the
    first capture that is saved carries the index after it. *)
Lemma first_saved_is_next_counterexample :
  ~ first_saved_is_next sample_world [sample_tick false 97; sample_tick true 113].
Proof.
  intros H. specialize (H 2 4 eq_refl eq_refl). discriminate H.
Qed.

(* ================================================================== *)
(** * Further properties of the code *)

(** ** The process lookup *)

Lemma first_safari_app (before after : list process) (pid : Z) :
  (forall q, In q before -> snd q <> Some SAFARI_PROCESS_NAME) ->
  first_safari (before ++ (pid, Some SAFARI_PROCESS_NAME) :: after) = Returned pid.
Proof.
  induction before as [|[q [name|]] before IH]; intros Hb; cbn [app first_safari].
  - now rewrite String.eqb_refl.
  - destruct (String.eqb_spec SAFARI_PROCESS_NAME name) as [<-|_].
    + exfalso. apply (Hb (q, Some SAFARI_PROCESS_NAME)); [now left | reflexivity].
    + apply IH. intros r Hr. apply Hb. now right.
  - apply IH. intros r Hr. apply Hb. now right.
Qed.

Lemma first_safari_split (ps : list process) (pid : Z) :
  first_safari ps = Returned pid ->
  exists before after,
    ps = (before ++ (pid, Some SAFARI_PROCESS_NAME) :: after)%list
    /\ forall q, In q before -> snd q <> Some SAFARI_PROCESS_NAME.
Proof.
  induction ps as [|[q [name|]] ps IH]; cbn [first_safari]; [discriminate| |].
  - destruct (String.eqb_spec SAFARI_PROCESS_NAME name) as [<-|Hn].
    + intros [= <-]. exists [], ps. split; [reflexivity | intros r []].
    + intros H. destruct (IH H) as (before & after & -> & Hb).
      exists ((q, Some name) :: before), after. split; [reflexivity|].
      intros r [<-|Hr]; [cbn; congruence | now apply Hb].
  - intros H. destruct (IH H) as (before & after & -> & Hb).
    exists ((q, None) :: before), after. split; [reflexivity|].
    intros r [<-|Hr]; [discriminate | now apply Hb].
Qed.

(** X1. findSafariPID returns a pid exactly when it is that of the first
    entry named Safari among the first 2048 entries of the process
    table; entries whose name cannot be read are passed over. *)
Theorem findSafariPID_returns_first (ps : list process) (pid : Z) :
  findSafariPID ps = Returned pid <->
  exists before after,
    firstn MAX_PROCESS_CHUNK ps
    = (before ++ (pid, Some SAFARI_PROCESS_NAME) :: after)%list
    /\ forall q, In q before -> snd q <> Some SAFARI_PROCESS_NAME.
Proof.
  unfold findSafariPID. split.
  - apply first_safari_split.
  - intros (before & after & -> & Hb). now apply first_safari_app.
Qed.

(** X2. The lookup reads one chunk of 2048 pids: when none of the first
    2048 entries is named Safari it throws, whatever comes after them in
    the table, a running Safari included. *)
Theorem findSafariPID_beyond_chunk (front rest : list process) :
  List.length front = MAX_PROCESS_CHUNK ->
  (forall pid, ~ In (pid, Some SAFARI_PROCESS_NAME) front) ->
  findSafariPID (front ++ rest) = Thrown runtime_error.
Proof.
  intros Hlen Hnot. unfold findSafariPID.
  rewrite <- Hlen, firstn_app, firstn_all, Nat.sub_diag, firstn_0, app_nil_r.
  destruct (first_safari_result front) as [(pid & _ & Hin) | [E _]]; [|exact E].
  now apply Hnot in Hin.
Qed.

Lemma findSafariPID_beyond_chunk_witness :
  findSafariPID (repeat (1, Some "launchd") 2048 ++ [(77, Some "Safari")])
  = Thrown runtime_error.
Proof.
  apply (findSafariPID_beyond_chunk (repeat (1, Some "launchd") 2048) [(77, Some "Safari")]).
  - apply repeat_length.
  - intros pid H. apply repeat_spec in H. discriminate H.
Defined.

(** ** The window lookup *)

(** X3. The window captured is the first one, in the order of the window
    list, that the target process owns and whose title reads exactly as
    the expected one. *)
Theorem find_window_first (pid : Z) (ws : list window) (win : window) :
  find_window pid ws = Some win <->
  exists before after,
    ws = (before ++ win :: after)%list
    /\ owner win = pid /\ title win = Some (Some expected_title)
    /\ forall w, In w before ->
                 ~ (owner w = pid /\ title w = Some (Some expected_title)).
Proof.
  split.
  - induction ws as [|w ws IH]; cbn [find_window]; [discriminate|].
    assert (Hskip : ~ (owner w = pid /\ title w = Some (Some expected_title)) ->
              find_window pid ws = Some win ->
              exists before after,
                (w :: ws) = (before ++ win :: after)%list
                /\ owner win = pid /\ title win = Some (Some expected_title)
                /\ forall w0, In w0 before ->
                      ~ (owner w0 = pid /\ title w0 = Some (Some expected_title))).
    { intros Hw H. destruct (IH H) as (before & after & -> & Ho & Ht & Hb).
      exists (w :: before), after. repeat split; auto.
      intros w0 [<-|Hin]; [exact Hw | now apply Hb]. }
    destruct (Z.eqb_spec (owner w) pid) as [Ho|Ho]; cbn [negb].
    + destruct (title w) as [[name|]|] eqn:Et.
      * destruct (String.eqb_spec name expected_title) as [->|Hn].
        -- intros [= <-]. exists [], ws. repeat split; auto; intros w0 [].
        -- apply Hskip. intros [_ [= E]]. contradiction.
      * apply Hskip. intros [_ E]. discriminate E.
      * apply Hskip. intros [_ E]. discriminate E.
    + apply Hskip. intros [E _]. contradiction.
  - intros (before & after & -> & Ho & Ht & Hb).
    induction before as [|w before IH]; cbn [app find_window].
    + rewrite Ho, Z.eqb_refl, Ht. cbn [negb]. now rewrite String.eqb_refl.
    + assert (Hw : ~ (owner w = pid /\ title w = Some (Some expected_title)))
        by (apply Hb; now left).
      assert (IH' : find_window pid (before ++ win :: after) = Some win)
        by (apply IH; intros w0 Hin; apply Hb; now right).
      destruct (Z.eqb_spec (owner w) pid) as [Eo|_]; cbn [negb]; [|exact IH'].
      destruct (title w) as [[name|]|] eqn:Et; try exact IH'.
      destruct (String.eqb_spec name expected_title) as [->|_]; [|exact IH'].
      exfalso. apply Hw. auto.
Qed.

(** ** The resolvers and the order of enumeration *)

Lemma maximum_perm (l l' : list Z) :
  Permutation l l' -> Spec.maximum l = Spec.maximum l'.
Proof.
  induction 1 as [|x l l' _ IH|x y l|l1 l2 l3 _ IH1 _ IH2]; cbn [Spec.maximum].
  - reflexivity.
  - now rewrite IH.
  - destruct (Spec.maximum l) as [m|]; f_equal; lia.
  - congruence.
Qed.

Lemma forallb_perm {A : Type} (f : A -> bool) (l l' : list A) :
  Permutation l l' -> forallb f l = forallb f l'.
Proof.
  induction 1 as [|x l l' _ IH|x y l|l1 l2 l3 _ IH1 _ IH2]; cbn [forallb].
  - reflexivity.
  - now rewrite IH.
  - now rewrite !andb_assoc, (andb_comm (f y)).
  - congruence.
Qed.

Lemma ranges_max_int_index_perm (l l' : list Z) :
  Permutation l l' ->
  ranges_max (map int_index l) = ranges_max (map int_index l').
Proof.
  intros H. now rewrite !ranges_max_int_index, (maximum_perm _ _ H), (forallb_perm _ _ _ H).
Qed.

Lemma version_indices_cons (prefix name : string) (x : node) (root : dir) :
  Spec.version_indices prefix ((name, x) :: root)
  = ((if is_directory (name, x)
      then match Spec.version_index prefix name with Some n => [n] | None => [] end
      else []) ++ Spec.version_indices prefix root)%list.
Proof.
  destruct x; cbn [Spec.version_indices is_directory snd]; try reflexivity.
  now destruct (Spec.version_index prefix name).
Qed.

Lemma version_indices_perm (prefix : string) (root root' : dir) :
  Permutation root root' ->
  Permutation (Spec.version_indices prefix root) (Spec.version_indices prefix root').
Proof.
  induction 1 as [|[n x] l l' _ IH|[n x] [n' x'] l|l1 l2 l3 _ IH1 _ IH2].
  - apply Permutation_refl.
  - rewrite !version_indices_cons. now apply Permutation_app_head.
  - rewrite !version_indices_cons, !app_assoc.
    apply Permutation_app_tail, Permutation_app_comm.
  - now apply Permutation_trans with (Spec.version_indices prefix l2).
Qed.

(** X4. The Version Index Resolver does not depend on the order in which
    the directory iterator lists the children of the root. *)
Theorem findLastVersionIndex_order (root root' : dir) (prefix : string) :
  Permutation root root' ->
  findLastVersionIndex root prefix = findLastVersionIndex root' prefix.
Proof.
  intros H. rewrite !findLastVersionIndex_eq.
  now apply ranges_max_int_index_perm, version_indices_perm.
Qed.

Lemma findLastVersionIndex_order_witness :
  findLastVersionIndex [("ver10", Directory []); ("ver2", Directory []); ("x", File)] "ver"
  = findLastVersionIndex [("ver2", Directory []); ("ver10", Directory []); ("x", File)] "ver".
Proof.
  apply (findLastVersionIndex_order
           [("ver10", Directory []); ("ver2", Directory []); ("x", File)]
           [("ver2", Directory []); ("ver10", Directory []); ("x", File)] "ver").
  apply perm_swap.
Defined.

Lemma image_values_perm (entries entries' : dir) :
  Permutation entries entries' ->
  Permutation (image_values entries) (image_values entries').
Proof.
  induction 1 as [|[n x] l l' _ IH|[n x] [n' x'] l|l1 l2 l3 _ IH1 _ IH2].
  - apply Permutation_refl.
  - rewrite !image_values_cons.
    destruct (is_regular_file (n, x) && regex_match n image_matcher); auto.
  - rewrite !image_values_cons.
    destruct (is_regular_file (n, x) && regex_match n image_matcher);
      destruct (is_regular_file (n', x') && regex_match n' image_matcher);
      auto using perm_swap.
  - now apply Permutation_trans with (image_values l2).
Qed.

Lemma version_indices_app (prefix : string) (l1 l2 : dir) :
  Spec.version_indices prefix (l1 ++ l2)%list
  = (Spec.version_indices prefix l1 ++ Spec.version_indices prefix l2)%list.
Proof.
  induction l1 as [|[n x] l1 IH]; [reflexivity|].
  cbn [app]. now rewrite !version_indices_cons, IH, app_assoc.
Qed.

Lemma lookup_app (name : string) (l1 l2 : dir) :
  lookup name (l1 ++ l2)%list
  = match lookup name l1 with Some x => Some x | None => lookup name l2 end.
Proof.
  induction l1 as [|[n x] l1 IH]; cbn [app lookup]; [reflexivity|].
  now destruct (String.eqb n name).
Qed.

(** X5. Nor does the Image Index Resolver depend on the order in which
    the entries of the version directory are listed. *)
Theorem findLastImageIndex_order (before after : dir) (d : string)
        (entries entries' : dir) (prefix : string) :
  Permutation entries entries' ->
  findLastImageIndex (before ++ (d, Directory entries) :: after)%list prefix
  = findLastImageIndex (before ++ (d, Directory entries') :: after)%list prefix.
Proof.
  intros H. rewrite !findLastImageIndex_eq. unfold findLastVersionDirectory.
  rewrite !findLastVersionIndex_eq, !version_indices_app, !version_indices_cons.
  cbn [is_directory snd].
  destruct (ranges_max _) as [v| |]; cbn [bind]; try reflexivity.
  unfold directory_iterator. rewrite !lookup_app. cbn [lookup].
  destruct (lookup _ before) as [x|]; [reflexivity|].
  destruct (String.eqb d _); [|reflexivity].
  cbn [bind]. now apply ranges_max_int_index_perm, image_values_perm.
Qed.

Lemma findLastImageIndex_order_witness :
  findLastImageIndex
    ([("ver1", Directory [])] ++ ("ver2", Directory [("9.png", File); ("4.png", File)]) :: [])%list
    "ver"
  = findLastImageIndex
      ([("ver1", Directory [])] ++ ("ver2", Directory [("4.png", File); ("9.png", File)]) :: [])%list
      "ver".
Proof.
  apply (findLastImageIndex_order [("ver1", Directory [])] [] "ver2"
           [("9.png", File); ("4.png", File)] [("4.png", File); ("9.png", File)] "ver").
  apply perm_swap.
Defined.

(** ** What the image resolver counts *)

Lemma digits_value_app (ds : string) :
  all_digits ds = true ->
  forall acc rest,
    digits_value acc (ds ++ rest)
    = digits_value (acc * 10 ^ Z.of_nat (String.length ds) + Spec.numeral_value ds) rest.
Proof.
  induction ds as [|c ds IH]; cbn [append String.length Spec.numeral_value digits_value];
    intros H acc rest.
  - f_equal. simpl. lia.
  - cbn [all_digits] in H. apply andb_true_iff in H as [Hc Hd].
    rewrite Hc, (IH Hd). f_equal.
    rewrite Nat2Z.inj_succ, Z.pow_succ_r by lia. ring.
Qed.

Lemma digits_value_image_name (ds : string) (c : ascii) :
  all_digits ds = true ->
  digits_value 0 (ds ++ String c "png") = stem_value ds c.
Proof.
  intros Hd. rewrite (digits_value_app ds Hd). unfold stem_value.
  cbn [digits_value]. change (isdigit "p") with false. cbv iota.
  destruct (isdigit c) eqn:Hc.
  - rewrite numeral_value_snoc. lia.
  - lia.
Qed.

Lemma in_image_values (entries : dir) (v : Z) :
  In v (image_values entries) <->
  exists ds c,
    In (ds ++ String c "png", File) entries
    /\ ds <> "" /\ all_digits ds = true /\ line_terminator c = false
    /\ v = stem_value ds c.
Proof.
  unfold image_values. rewrite in_map_iff. split.
  - intros (name & <- & Hin). apply filter_In in Hin as [Hin Hm].
    apply in_map_iff in Hin as ([n x] & <- & Hin).
    apply filter_In in Hin as [Hin Hf]. cbn [filename fst] in *.
    destruct x; try discriminate Hf.
    apply image_matcher_spec in Hm as (ds & c & -> & Hne & Hd & Hc).
    exists ds, c. repeat split; auto. now apply digits_value_image_name.
  - intros (ds & c & Hin & Hne & Hd & Hc & ->).
    exists (ds ++ String c "png"). split; [now apply digits_value_image_name|].
    apply filter_In. split.
    + apply in_map_iff. exists (ds ++ String c "png", File). split; [reflexivity|].
      apply filter_In. split; [exact Hin | reflexivity].
    + apply image_matcher_spec. exists ds, c. auto.
Qed.

(** X6. An index returned by the Image Index Resolver is that of a
    regular file of the latest version directory named digits, one more
    character that is not a line terminator, then [png]: the character
    need not be a dot, and when it is a digit it is read as part of the
    number. No file so named has a greater index. *)
Theorem findLastImageIndex_counts (root : dir) (prefix : string) (m : Z) :
  findLastImageIndex root prefix = Returned m ->
  exists d entries,
    findLastVersionDirectory root prefix = Returned d
    /\ lookup d root = Some (Directory entries)
    /\ (exists ds c,
          In (ds ++ String c "png", File) entries
          /\ ds <> "" /\ all_digits ds = true /\ line_terminator c = false
          /\ m = stem_value ds c)
    /\ (forall ds c,
          In (ds ++ String c "png", File) entries ->
          ds <> "" -> all_digits ds = true -> line_terminator c = false ->
          stem_value ds c <= m).
Proof.
  rewrite findLastImageIndex_eq.
  destruct (findLastVersionDirectory root prefix) as [d| |]; cbn [bind]; try discriminate.
  unfold directory_iterator.
  destruct (lookup d root) as [[| |entries]|] eqn:El; cbn [bind]; try discriminate.
  rewrite ranges_max_int_index.
  destruct (Spec.maximum (image_values entries)) as [m'|] eqn:Em; [|discriminate].
  destruct (forallb in_int_range (image_values entries)); [|discriminate].
  intros [= ->]. apply maximum_upper in Em as [Hin Hle].
  exists d, entries. repeat split; auto.
  - now apply in_image_values.
  - intros ds c Hf Hne Hd Hc. apply Hle. apply in_image_values. exists ds, c. auto.
Qed.

Lemma findLastImageIndex_counts_witness :
  exists d entries,
    findLastVersionDirectory
      [("ver1", Directory [("1.png", File); ("12png", File); ("7xpng", File)])] "ver"
    = Returned d
    /\ lookup d [("ver1", Directory [("1.png", File); ("12png", File); ("7xpng", File)])]
       = Some (Directory entries)
    /\ (exists ds c,
          In (ds ++ String c "png", File) entries
          /\ ds <> "" /\ all_digits ds = true /\ line_terminator c = false
          /\ 12 = stem_value ds c)
    /\ (forall ds c,
          In (ds ++ String c "png", File) entries ->
          ds <> "" -> all_digits ds = true -> line_terminator c = false ->
          stem_value ds c <= 12).
Proof.
  apply (findLastImageIndex_counts
           [("ver1", Directory [("1.png", File); ("12png", File); ("7xpng", File)])] "ver" 12).
  reflexivity.
Defined.

(** ** How the resolvers and start-up fail *)

(** X7. The Image Index Resolver leaves with a filesystem error exactly
    when the version index was resolved but the path rendered from it is
    not a directory under the root, as with a latest version directory
    written with leading zeros. *)
Theorem findLastImageIndex_filesystem_error (root : dir) (prefix : string) :
  findLastImageIndex root prefix = Thrown filesystem_error <->
  exists v,
    findLastVersionIndex root prefix = Returned v
    /\ forall entries, lookup (prefix ++ to_string v) root <> Some (Directory entries).
Proof.
  rewrite findLastImageIndex_eq. unfold findLastVersionDirectory. split.
  - destruct (findLastVersionIndex root prefix) as [v|e|] eqn:Ev; cbn [bind].
    + unfold directory_iterator.
      destruct (lookup (prefix ++ to_string v) root) as [[| |entries]|] eqn:El; cbn [bind];
        try (intros _; exists v; split; [reflexivity | intros es; rewrite El; discriminate]).
      rewrite ranges_max_int_index.
      destruct (Spec.maximum _); [|discriminate].
      destruct (forallb _ _); discriminate.
    + apply findLastVersionIndex_thrown in Ev as ->. discriminate.
    + discriminate.
  - intros (v & -> & Hl). cbn [bind]. unfold directory_iterator.
    destruct (lookup (prefix ++ to_string v) root) as [[| |entries]|] eqn:El; try reflexivity.
    now destruct (Hl entries).
Qed.

(** X8. The version index that is returned is a non-negative [int] and
    the index of a version directory that exists under the root, and no
    version directory has a greater one; so adding one to it never wraps
    the [std::size_t] it is kept in. *)
Theorem findLastVersionIndex_sound (root : dir) (prefix : string) (m : Z) :
  findLastVersionIndex root prefix = Returned m ->
  0 <= m <= INT_MAX
  /\ size_t (m + 1) = m + 1
  /\ (exists name entries,
        In (name, Directory entries) root /\ Spec.version_index prefix name = Some m)
  /\ (forall name entries n,
        In (name, Directory entries) root ->
        Spec.version_index prefix name = Some n -> n <= m).
Proof.
  intros H. pose proof (findLastVersionIndex_range _ _ _ H) as Hr.
  apply findLastVersionIndex_returned in H as [Hmax _].
  apply maximum_upper in Hmax as [Hin Hle].
  repeat split; try tauto.
  - now apply size_t_succ_index.
  - now apply in_version_indices.
  - intros name entries n Hd Hn. apply Hle. apply in_version_indices. eauto.
Qed.

Lemma findLastVersionIndex_sound_witness :
  0 <= 12 <= INT_MAX
  /\ size_t (12 + 1) = 12 + 1
  /\ (exists name entries,
        In (name, Directory entries)
           [("ver3", Directory []); ("ver12", Directory []); ("ver40", File)]
        /\ Spec.version_index "ver" name = Some 12)
  /\ (forall name entries n,
        In (name, Directory entries)
           [("ver3", Directory []); ("ver12", Directory []); ("ver40", File)] ->
        Spec.version_index "ver" name = Some n -> n <= 12).
Proof.
  apply (findLastVersionIndex_sound
           [("ver3", Directory []); ("ver12", Directory []); ("ver40", File)] "ver" 12).
  reflexivity.
Defined.

Lemma findLastImageIndex_exceptions (root : dir) (prefix : string) (e : exn) :
  findLastImageIndex root prefix = Thrown e -> e = out_of_range \/ e = filesystem_error.
Proof.
  rewrite findLastImageIndex_eq. unfold findLastVersionDirectory.
  destruct (findLastVersionIndex root prefix) as [v|e'|] eqn:Ev; cbn [bind].
  - unfold directory_iterator.
    destruct (lookup _ root) as [[| |entries]|]; cbn [bind]; try (intros [= <-]; auto).
    rewrite ranges_max_int_index.
    destruct (Spec.maximum _); [|discriminate].
    destruct (forallb _ _); [discriminate | intros [= <-]; auto].
  - apply findLastVersionIndex_thrown in Ev as ->. intros [= <-]. auto.
  - discriminate.
Qed.

(** X9. When start-up fails (lines 129-138) it is not through the
    [assert] on [create_directory], whose name is never that of an
    existing directory, nor through [std::invalid_argument], since
    [std::stoi] is only given names that start with a digit: what is left
    is undefined behaviour and the errors out-of-range, filesystem and
    process-not-found. *)
Theorem startup_failures (w : world) (f : failure) (disk : dir) :
  startup w = StartupFailed f disk ->
  f = UndefinedBehaviour \/ f = Uncaught out_of_range
  \/ f = Uncaught filesystem_error \/ f = Uncaught runtime_error.
Proof.
  unfold startup.
  destruct (findLastVersionIndex (assets w) versionDirectoryName) as [v|e|] eqn:Ev.
  - destruct (findLastImageIndex (assets w) versionDirectoryName) as [m|e|] eqn:Em.
    + rewrite (size_t_succ_index v (findLastVersionIndex_range _ _ _ Ev)).
      destruct (create_directory_unused (mkdir_permitted w) (assets w)
                  (versionDirectoryName ++ to_string (v + 1))) as [Ec|Ec];
        [intros entries; now apply next_version_unused | |]; rewrite Ec.
      * unfold findSafariPID.
        destruct (first_safari_result (firstn MAX_PROCESS_CHUNK (processes w)))
          as [(pid & Ep & _) | [Ep _]]; rewrite Ep; [discriminate|].
        intros [= <- _]. cbn. auto.
      * intros [= <- _]. cbn. auto.
    + intros [= <- _]. cbn.
      destruct (findLastImageIndex_exceptions _ _ _ Em) as [-> | ->]; auto.
    + intros [= <- _]. cbn. auto.
  - intros [= <- _]. cbn. apply findLastVersionIndex_thrown in Ev as ->. auto.
  - intros [= <- _]. cbn. auto.
Qed.

Lemma startup_failures_witness :
  Uncaught filesystem_error = UndefinedBehaviour
  \/ Uncaught filesystem_error = Uncaught out_of_range
  \/ Uncaught filesystem_error = Uncaught filesystem_error
  \/ Uncaught filesystem_error = Uncaught runtime_error.
Proof.
  apply (startup_failures
           {| assets := [("ver007", Directory [("1.png", File)])];
              processes := [(77, Some "Safari")];
              mkdir_permitted := true |} (Uncaught filesystem_error)
           [("ver007", Directory [("1.png", File)])]).
  reflexivity.
Defined.

(** ** The image counter within a run *)

Lemma nth_capture_index (ticks : list tick) :
  forall st disk,
    0 <= imageIndex st ->
    imageIndex st + Z.of_nat (List.length ticks) < 2 ^ 64 ->
    forall k i,
      nth_error (capture_indices (log_of (capture_loop st disk ticks))) k = Some i ->
      i = imageIndex st + Z.of_nat k + 1.
Proof.
  induction ticks as [|t ticks IH]; intros st disk H0 Hb k i.
  - cbn. destruct k; discriminate.
  - cbn [List.length] in Hb. rewrite Nat2Z.inj_succ in Hb.
    destruct (iteration_cases st disk t) as [[_ E] | [(_ & _ & E) | (_ & _ & E)]];
      [destruct (capture_loop_cons _ _ _ ticks _ _ _ E I) as [[Hk Ec] | (Hk & Ec & El & _)]
      |destruct (capture_loop_cons _ _ _ ticks _ _ _ E I) as [[Hk Ec] | (Hk & Ec & El & _)]
      |pose proof (capture_loop_null _ _ _ ticks _ _ _ E) as Ec].
    + rewrite Ec. cbn. destruct k; discriminate.
    + rewrite El. cbn [capture_indices]. apply IH; lia.
    + rewrite Ec. cbn [log_of capture_indices].
      rewrite size_t_small by lia.
      destruct k as [|k]; cbn [nth_error]; [intros [= <-]; lia | destruct k; discriminate].
    + rewrite El. cbn [capture_indices]. rewrite size_t_small by lia.
      destruct k as [|k]; cbn [nth_error]; [intros [= <-]; lia|].
      intros H. apply IH in H; cbn [imageIndex] in H |- *;
        rewrite ?size_t_small in * by lia; lia.
    + rewrite Ec. cbn [log_of capture_indices].
      rewrite size_t_small by lia.
      destruct k as [|k]; cbn [nth_error]; [intros [= <-]; lia | destruct k; discriminate].
Qed.

(** X10. Within a run the image counter only steps by one: the k-th
    capture of the run (counting from 0, saved or not) carries the index
    M + k + 1, M being the index start-up resolved. (Runs of fewer than
    2^63 iterations.) *)
Theorem capture_indices_consecutive (w : world) (ticks : list tick) (m : Z)
        (k : nat) (i : Z) :
  findLastImageIndex (assets w) versionDirectoryName = Returned m ->
  Z.of_nat (List.length ticks) < 2 ^ 63 ->
  nth_error (capture_indices (log_of (main w ticks))) k = Some i ->
  i = m + Z.of_nat k + 1.
Proof.
  intros Hm Hlen. unfold main.
  destruct (startup w) as [disk st | f disk] eqn:E; [|destruct k; discriminate].
  apply startup_started in E as (v & m' & pid & _ & Hm' & _ & _ & ->).
  rewrite Hm in Hm'. injection Hm' as <-.
  pose proof (findLastImageIndex_range _ _ _ Hm) as Hr. unfold INT_MAX in Hr.
  change (2 ^ 63) with 9223372036854775808 in Hlen.
  intros H. apply nth_capture_index in H; cbn [imageIndex] in *;
    try (change (2 ^ 64) with 18446744073709551616); lia.
Qed.

Lemma capture_indices_consecutive_witness :
  5 = 2 + Z.of_nat 2 + 1.
Proof.
  apply (capture_indices_consecutive sample_world
           [sample_tick true 97; idle_tick; sample_tick false 98; sample_tick true 113]
           2 2 5 eq_refl).
  - vm_compute. reflexivity.
  - reflexivity.
Defined.

(** ** The assets directory during and after a run *)

Lemma split_dot_digits (ds ext : string) :
  all_digits ds = true -> Spec.split_dot (ds ++ String "." ext) = Some (ds, ext).
Proof.
  induction ds as [|c ds IH]; cbn [append Spec.split_dot all_digits]; intros H.
  - reflexivity.
  - apply andb_true_iff in H as [Hc Hd].
    destruct (Ascii.eqb_spec c ".") as [->|_]; [discriminate Hc|].
    now rewrite (IH Hd).
Qed.

(** The name [to_string i ++ ".png"] is read back as [i]. *)
Lemma image_index_image_file (i : Z) :
  0 <= i < 2 ^ 64 -> Spec.image_index (to_string i ++ ".png") = Some i.
Proof.
  intros Hi. pose proof (numeral_to_string i Hi) as Hn.
  pose proof Hn as Hn'. apply numeral_some in Hn' as (_ & Hd & _).
  unfold Spec.image_index. now rewrite (split_dot_digits _ "png" Hd).
Qed.

Lemma lookup_none (name : string) (es : dir) :
  (forall e, In e es -> fst e <> name) -> lookup name es = None.
Proof.
  induction es as [|[n x] es IH]; intros H; cbn [lookup]; [reflexivity|].
  destruct (String.eqb_spec n name) as [E|_].
  - exfalso. apply (H (n, x)); [now left | exact E].
  - apply IH. intros e He. apply H. now right.
Qed.

Lemma image_file_fresh (es : dir) (idx : Z) :
  0 <= idx -> idx + 1 < 2 ^ 64 ->
  (forall e, In e es -> exists i, e = image_file i /\ 0 <= i <= idx) ->
  add_file es (to_string (idx + 1) ++ ".png") = (es ++ [image_file (idx + 1)])%list.
Proof.
  intros H0 Hb Hes. unfold add_file. rewrite lookup_none; [reflexivity|].
  intros e He E. destruct (Hes e He) as (i & -> & Hi). cbn [image_file fst] in E.
  assert (Hsome : Some i = Some (idx + 1)).
  { rewrite <- (image_index_image_file i) by lia.
    rewrite <- (image_index_image_file (idx + 1)) by lia. now rewrite E. }
  injection Hsome as ->. lia.
Qed.

(** The loop appends to the new directory one file per saved capture. *)
Lemma loop_disk_exact (base : dir) (d : string) (ticks : list tick) :
  lookup d base = None ->
  forall st es,
    newVersionPath st = d ->
    0 <= imageIndex st ->
    imageIndex st + Z.of_nat (List.length ticks) < 2 ^ 64 ->
    (forall e, In e es -> exists i, e = image_file i /\ 0 <= i <= imageIndex st) ->
    disk_of (capture_loop st (base ++ [(d, Directory es)])%list ticks)
    = (base ++ [(d, Directory
                       (es ++ map image_file
                                  (saved_indices
                                     (log_of (capture_loop st (base ++ [(d, Directory es)])%list
                                                ticks)))))])%list.
Proof.
  intros Hd. induction ticks as [|t ticks IH]; intros st es Hp H0 Hb Hes.
  - cbn. now rewrite app_nil_r.
  - cbn [List.length] in Hb. rewrite Nat2Z.inj_succ in Hb.
    destruct (iteration_cases st (base ++ [(d, Directory es)])%list t)
      as [[_ E] | [(_ & _ & E) | (_ & _ & E)]];
      [| |rewrite (capture_loop_null _ _ _ ticks _ _ _ E); cbn; now rewrite app_nil_r].
    + destruct (capture_loop_cons _ _ _ ticks _ _ _ E I) as [[Hk Ec] | (Hk & Ec & El & Ed)].
      * rewrite Ec. cbn. now rewrite app_nil_r.
      * rewrite El, Ed. cbn [saved_indices]. apply IH; auto. lia.
    + rewrite Hp, size_t_small in E by lia.
      destruct (SaveCGImageToPNG t) eqn:Es.
      * rewrite (write_file_new_directory _ _ _ _ Hd), (image_file_fresh es _ H0) in E
          by (auto; lia).
        destruct (capture_loop_cons _ _ _ ticks _ _ _ E I) as [[Hk Ec] | (Hk & Ec & El & Ed)].
        -- rewrite Ec. reflexivity.
        -- rewrite El, Ed. cbn [saved_indices].
           rewrite IH; cbn [imageIndex newVersionPath]; auto; try lia.
           ++ now rewrite <- app_assoc.
           ++ intros e He. apply in_app_or in He as [He | [<- | []]].
              ** destruct (Hes e He) as (i & -> & Hi). exists i. split; [reflexivity | lia].
              ** exists (imageIndex st + 1). split; [reflexivity | lia].
      * destruct (capture_loop_cons _ _ _ ticks _ _ _ E I) as [[Hk Ec] | (Hk & Ec & El & Ed)].
        -- rewrite Ec. cbn. now rewrite app_nil_r.
        -- rewrite El, Ed. cbn [saved_indices].
           apply IH; cbn [imageIndex newVersionPath]; auto; try lia.
           intros e He. destruct (Hes e He) as (i & -> & Hi).
           exists i. split; [reflexivity | lia].
Qed.

(** The assets directory of a run whose start-up has made the new
    directory. *)
Lemma run_disk_created (w : world) (ticks : list tick) (v m : Z) :
  findLastVersionIndex (assets w) versionDirectoryName = Returned v ->
  findLastImageIndex (assets w) versionDirectoryName = Returned m ->
  fst (create_directory (mkdir_permitted w) (assets w)
         (versionDirectoryName ++ to_string (v + 1))) = Returned true ->
  Z.of_nat (List.length ticks) < 2 ^ 63 ->
  lookup (versionDirectoryName ++ to_string (v + 1)) (assets w) = None
  /\ disk_of (main w ticks)
     = with_directory (assets w) (versionDirectoryName ++ to_string (v + 1))
         (map image_file (saved_indices (log_of (main w ticks))))
  /\ (forall i saved, In (Capture i saved) (log_of (main w ticks)) ->
                      m < i <= m + Z.of_nat (List.length ticks)).
Proof.
  intros Hv Hm Hc Hlen.
  pose proof (findLastVersionIndex_range _ _ _ Hv) as Hrv.
  pose proof (findLastImageIndex_range _ _ _ Hm) as Hrm. unfold INT_MAX in Hrm.
  change (2 ^ 63) with 9223372036854775808 in Hlen.
  assert (Hfree : lookup (versionDirectoryName ++ to_string (v + 1)) (assets w) = None).
  { revert Hc. unfold create_directory.
    destruct (lookup _ (assets w)) as [[| |es]|]; cbn [fst]; try discriminate. reflexivity. }
  split; [exact Hfree|].
  unfold main, startup. rewrite Hv, Hm, (size_t_succ_index v Hrv).
  unfold create_directory in *. rewrite Hfree in *.
  destruct (mkdir_permitted w); [|discriminate Hc].
  destruct (findSafariPID (processes w)) as [pid| |]; cbn [failure_of disk_of log_of];
    try (split; [reflexivity | intros i saved []]).
  unfold new_directory, with_directory. split.
  - rewrite loop_disk_exact; cbn [imageIndex newVersionPath]; auto;
      try (change (2 ^ 64) with 18446744073709551616; lia).
    intros e [].
  - match goal with
    | |- context [capture_loop ?s ?d ticks] =>
        destruct (loop_indices ticks s d) as [H _]; cbn [imageIndex] in *; auto; lia
    end.
Qed.






(** X11. Once start-up has made the new version directory, the assets
    directory is, at any point of the run, what it was before, entry for
    entry, followed by the new directory, and the new directory holds
    exactly one regular file [i.png] for each capture saved so far, in the
    order of the captures. (Runs of fewer than 2^63 iterations.) *)
Theorem run_leaves_prior_assets (w : world) (ticks : list tick) (v m : Z) :
  findLastVersionIndex (assets w) versionDirectoryName = Returned v ->
  findLastImageIndex (assets w) versionDirectoryName = Returned m ->
  fst (create_directory (mkdir_permitted w) (assets w)
         (versionDirectoryName ++ to_string (v + 1))) = Returned true ->
  Z.of_nat (List.length ticks) < 2 ^ 63 ->
  disk_of (main w ticks)
  = with_directory (assets w) (versionDirectoryName ++ to_string (v + 1))
      (map image_file (saved_indices (log_of (main w ticks)))).
Proof.
  intros Hv Hm Hc Hlen. exact (proj1 (proj2 (run_disk_created w ticks v m Hv Hm Hc Hlen))).
Qed.

Lemma run_leaves_prior_assets_witness :
  disk_of (main sample_world
             [sample_tick true 97; idle_tick; sample_tick false 98; sample_tick true 113])
  = with_directory (assets sample_world) (versionDirectoryName ++ to_string (1 + 1))
      (map image_file [3; 5]).
Proof.
  apply (run_leaves_prior_assets sample_world
           [sample_tick true 97; idle_tick; sample_tick false 98; sample_tick true 113]
           1 2 eq_refl eq_refl eq_refl).
  vm_compute. reflexivity.
Defined.

(** ** From one run to the next *)

Lemma maximum_app_last (l : list Z) (y : Z) :
  (forall x, In x l -> x <= y) -> Spec.maximum (l ++ [y]) = Some y.
Proof.
  induction l as [|x l IH]; intros H; cbn [app Spec.maximum]; [reflexivity|].
  rewrite IH by (intros z Hz; apply H; now right).
  f_equal. assert (x <= y) by (apply H; now left). lia.
Qed.

(** The version index once the directory of index [v + 1] is there,
    whatever it holds. *)
Lemma findLastVersionIndex_next (root : dir) (prefix : string) (v : Z) (es : dir) :
  findLastVersionIndex root prefix = Returned v ->
  findLastVersionIndex (with_directory root (prefix ++ to_string (v + 1)) es) prefix
  = if v <? INT_MAX then Returned (v + 1) else Thrown out_of_range.
Proof.
  intros Hv. pose proof (findLastVersionIndex_range _ _ _ Hv) as Hr.
  apply findLastVersionIndex_returned in Hv as [Hmax Hrange].
  apply maximum_upper in Hmax as [_ Hle].
  unfold with_directory.
  rewrite findLastVersionIndex_eq, version_indices_app, version_indices_cons.
  cbn [is_directory snd Spec.version_indices].
  rewrite version_index_to_string
    by (unfold INT_MAX in Hr; change (2 ^ 64) with 18446744073709551616; lia).
  rewrite app_nil_r, ranges_max_int_index, maximum_app_last
    by (intros x Hx; specialize (Hle x Hx); lia).
  rewrite forallb_app, Hrange. cbn [forallb andb]. unfold in_int_range.
  rewrite andb_true_r.
  destruct (Z.ltb_spec v INT_MAX), (Z.leb_spec (v + 1) INT_MAX); try reflexivity; lia.
Qed.

(** X12. After start-up has made its directory, the Version Index
    Resolver on the new state of the root returns the index just used,
    one more than before; except that at [INT_MAX] the directory made is
    one whose index [std::stoi] cannot read, and the resolver throws. *)
Theorem findLastVersionIndex_after_creation (root : dir) (prefix : string) (v : Z) :
  findLastVersionIndex root prefix = Returned v ->
  findLastVersionIndex (new_directory root (prefix ++ to_string (v + 1))) prefix
  = if v <? INT_MAX then Returned (v + 1) else Thrown out_of_range.
Proof.
  intros Hv. change (new_directory root (prefix ++ to_string (v + 1)))
    with (with_directory root (prefix ++ to_string (v + 1)) []).
  now apply findLastVersionIndex_next.
Qed.

Lemma findLastVersionIndex_after_creation_witness :
  findLastVersionIndex
    (new_directory [("ver2147483647", Directory [])] ("ver" ++ to_string (2147483647 + 1)))
    "ver"
  = Thrown out_of_range.
Proof.
  exact (findLastVersionIndex_after_creation [("ver2147483647", Directory [])] "ver"
           2147483647 eq_refl).
Defined.

Lemma in_saved_indices (l : list event) (i : Z) :
  In i (saved_indices l) -> In (Capture i true) l.
Proof.
  induction l as [|[|j [|]|j] l IH]; cbn [saved_indices]; intros H.
  - destruct H.
  - right. auto.
  - destruct H as [<-|H]; [now left | right; auto].
  - right. auto.
  - right. auto.
Qed.

Lemma image_values_image_files (l : list Z) :
  (forall i, In i l -> 0 <= i < 2 ^ 64) ->
  image_values (map image_file l) = l.
Proof.
  induction l as [|i l IH]; intros H; [reflexivity|].
  cbn [map]. unfold image_file at 1. rewrite image_values_cons.
  destruct (image_index_accepted _ _ (image_index_image_file i (H i (or_introl eq_refl))))
    as [Hm Hv].
  cbn [is_regular_file snd andb]. rewrite Hm, Hv, IH; [reflexivity|].
  intros j Hj. apply H. now right.
Qed.

(** What the next start-up resolves on the assets a run has left. *)
Lemma next_run_resolvers (w : world) (ticks : list tick) (v m : Z) :
  findLastVersionIndex (assets w) versionDirectoryName = Returned v ->
  findLastImageIndex (assets w) versionDirectoryName = Returned m ->
  fst (create_directory (mkdir_permitted w) (assets w)
         (versionDirectoryName ++ to_string (v + 1))) = Returned true ->
  v < INT_MAX ->
  m + Z.of_nat (List.length ticks) <= INT_MAX ->
  findLastVersionIndex (disk_of (main w ticks)) versionDirectoryName = Returned (v + 1)
  /\ findLastImageIndex (disk_of (main w ticks)) versionDirectoryName
     = match Spec.maximum (saved_indices (log_of (main w ticks))) with
       | Some j => Returned j
       | None => Undefined
       end.
Proof.
  intros Hv Hm Hc Hlt Hlen.
  pose proof (findLastImageIndex_range _ _ _ Hm) as Hrm.
  assert (Hlen' : Z.of_nat (List.length ticks) < 2 ^ 63)
    by (unfold INT_MAX in *; change (2 ^ 63) with 9223372036854775808; lia).
  destruct (run_disk_created w ticks v m Hv Hm Hc Hlen') as (Hfree & Hdisk & Hidx).
  rewrite Hdisk.
  assert (Hnext : findLastVersionIndex
                    (with_directory (assets w) (versionDirectoryName ++ to_string (v + 1))
                       (map image_file (saved_indices (log_of (main w ticks)))))
                    versionDirectoryName = Returned (v + 1)).
  { rewrite (findLastVersionIndex_next _ _ _ _ Hv).
    destruct (Z.ltb_spec v INT_MAX); [reflexivity | lia]. }
  split; [exact Hnext|].
  rewrite findLastImageIndex_eq. unfold findLastVersionDirectory.
  rewrite Hnext. cbn [bind]. unfold directory_iterator, with_directory.
  rewrite (lookup_app_none _ _ _ Hfree). cbn [bind].
  assert (Hsaved : forall i, In i (saved_indices (log_of (main w ticks))) ->
                             0 <= i <= INT_MAX).
  { intros i Hi. apply in_saved_indices in Hi. specialize (Hidx _ _ Hi). lia. }
  rewrite image_values_image_files, ranges_max_int_index.
  - destruct (Spec.maximum _) as [j|]; [|reflexivity].
    replace (forallb in_int_range (saved_indices (log_of (main w ticks)))) with true;
      [reflexivity|].
    symmetry. apply forallb_forall. intros i Hi. apply Z.leb_le. now apply Hsaved.
  - intros i Hi. specialize (Hsaved i Hi). unfold INT_MAX in Hsaved.
    change (2 ^ 64) with 18446744073709551616. lia.
Qed.

(** X13. A run that makes its directory and saves at least one image
    leaves the assets so that the next start-up resolves the version
    index one higher and, as image index, the greatest index this run
    saved: the counter goes on across runs. (All indices within [int].) *)
Theorem next_run_resumes (w : world) (ticks : list tick) (v m j : Z) :
  findLastVersionIndex (assets w) versionDirectoryName = Returned v ->
  findLastImageIndex (assets w) versionDirectoryName = Returned m ->
  fst (create_directory (mkdir_permitted w) (assets w)
         (versionDirectoryName ++ to_string (v + 1))) = Returned true ->
  v < INT_MAX ->
  m + Z.of_nat (List.length ticks) <= INT_MAX ->
  Spec.maximum (saved_indices (log_of (main w ticks))) = Some j ->
  findLastVersionIndex (disk_of (main w ticks)) versionDirectoryName = Returned (v + 1)
  /\ findLastImageIndex (disk_of (main w ticks)) versionDirectoryName = Returned j.
Proof.
  intros Hv Hm Hc Hlt Hlen Hj.
  destruct (next_run_resolvers w ticks v m Hv Hm Hc Hlt Hlen) as [H1 H2].
  rewrite Hj in H2. auto.
Qed.

Lemma next_run_resumes_witness :
  findLastVersionIndex
    (disk_of (main sample_world
                [sample_tick true 97; sample_tick true 98; sample_tick false 113]))
    versionDirectoryName = Returned (1 + 1)
  /\ findLastImageIndex
       (disk_of (main sample_world
                   [sample_tick true 97; sample_tick true 98; sample_tick false 113]))
       versionDirectoryName = Returned 4.
Proof.
  apply (next_run_resumes sample_world
           [sample_tick true 97; sample_tick true 98; sample_tick false 113] 1 2 4
           eq_refl eq_refl eq_refl); vm_compute; congruence.
Defined.

(** X14. A run that makes its directory but saves no image, because the
    process lookup then fails or because no write succeeds, leaves an
    empty latest version directory: at the next start-up the Image Index
    Resolver takes the maximum of an empty range and the process has
    undefined behaviour. *)
Theorem empty_run_breaks_next_start (w w' : world) (ticks : list tick) (v m : Z) :
  findLastVersionIndex (assets w) versionDirectoryName = Returned v ->
  findLastImageIndex (assets w) versionDirectoryName = Returned m ->
  fst (create_directory (mkdir_permitted w) (assets w)
         (versionDirectoryName ++ to_string (v + 1))) = Returned true ->
  v < INT_MAX ->
  m + Z.of_nat (List.length ticks) <= INT_MAX ->
  saved_indices (log_of (main w ticks)) = [] ->
  assets w' = disk_of (main w ticks) ->
  forall ticks', main w' ticks' = Aborted UndefinedBehaviour (assets w').
Proof.
  intros Hv Hm Hc Hlt Hlen Hs Hw ticks'.
  destruct (next_run_resolvers w ticks v m Hv Hm Hc Hlt Hlen) as [H1 H2].
  rewrite Hs in H2. cbn [Spec.maximum] in H2. rewrite <- Hw in H1, H2.
  unfold main, startup. now rewrite H1, H2.
Qed.

Lemma empty_run_breaks_next_start_witness :
  main {| assets := [("ver1", Directory [("1.png", File)]); ("ver2", Directory [])];
          processes := [(77, Some "Safari")];
          mkdir_permitted := true |} [sample_tick true 113]
  = Aborted UndefinedBehaviour
      [("ver1", Directory [("1.png", File)]); ("ver2", Directory [])].
Proof.
  apply (empty_run_breaks_next_start
           {| assets := [("ver1", Directory [("1.png", File)])];
              processes := [(1, Some "launchd")];
              mkdir_permitted := true |}
           {| assets := [("ver1", Directory [("1.png", File)]); ("ver2", Directory [])];
              processes := [(77, Some "Safari")];
              mkdir_permitted := true |}
           [] 1 1 eq_refl eq_refl eq_refl); vm_compute; congruence.
Defined.

(** ** Leaving the loop *)

Lemma capture_loop_idle (ticks : list tick) (st : loop_state) (disk : dir) :
  keyCode st <> 113 ->
  (forall t, In t ticks -> ~ target_window_present (safariPID st) (windows t)) ->
  capture_loop st disk ticks = InLoop st disk (repeat NoWindow (List.length ticks)).
Proof.
  intros Hk. induction ticks as [|t ticks IH]; intros Hno; [reflexivity|].
  cbn [capture_loop]. unfold iteration.
  assert (E : find_window (safariPID st) (windows t) = None)
    by (apply find_window_none, Hno; now left).
  rewrite E. destruct (Z.eqb_spec (keyCode st) 113) as [|_]; [contradiction|].
  rewrite IH by (intros t' Ht'; apply Hno; now right). reflexivity.
Qed.

(** X15. While no window of the target process carries the expected
    title the process stays in the loop: it does not exit, whatever keys
    are pressed, it captures and writes nothing, and its state is the one
    start-up left. *)
Theorem no_window_never_exits (w : world) (ticks : list tick) (disk : dir)
        (st : loop_state) :
  startup w = Started disk st ->
  (forall t, In t ticks -> ~ target_window_present (safariPID st) (windows t)) ->
  main w ticks = InLoop st disk (repeat NoWindow (List.length ticks)).
Proof.
  intros Hs Hno. unfold main. rewrite Hs.
  apply capture_loop_idle; [|exact Hno].
  rewrite (startup_key _ _ _ Hs). discriminate.
Qed.

Lemma no_window_never_exits_witness :
  main sample_world [idle_tick; idle_tick; idle_tick]
  = InLoop {| newVersionPath := "ver2"; imageIndex := 2; safariPID := 77; keyCode := -1 |}
      [("ver1", Directory [("1.png", File); ("2.png", File)]); ("ver2", Directory [])]
      (repeat NoWindow (List.length [idle_tick; idle_tick; idle_tick])).
Proof.
  apply (no_window_never_exits sample_world [idle_tick; idle_tick; idle_tick] _ _ eq_refl).
  intros t [<- | [<- | [<- | []]]]; exact idle_tick_no_window.
Defined.

Lemma capture_loop_exit (ticks : list tick) :
  forall st disk c disk' log,
    keyCode st <> 113 ->
    capture_loop st disk ticks = Exited c disk' log ->
    c = 0
    /\ exists pre t rest st1 disk1 log1 i saved,
         ticks = (pre ++ t :: rest)%list
         /\ capture_loop st disk pre = InLoop st1 disk1 log1
         /\ target_window_present (safariPID st1) (windows t)
         /\ key t = 113
         /\ log = (log1 ++ [Capture i saved])%list.
Proof.
  induction ticks as [|t ticks IH]; intros st disk c disk' log Hk; [discriminate|].
  destruct (iteration_cases st disk t) as [[_ E] | [(Hw & _ & E) | (_ & _ & E)]];
    [destruct (capture_loop_cons _ _ _ ticks _ _ _ E I) as [[Hk' Ec] | (Hk' & Ec & _ & _)]
    |destruct (capture_loop_cons _ _ _ ticks _ _ _ E I) as [[Hk' Ec] | (Hk' & Ec & _ & _)]
    |rewrite (capture_loop_null _ _ _ ticks _ _ _ E); discriminate];
    rewrite Ec.
  - contradiction.
  - destruct (capture_loop st disk ticks) as [c0 d0 l0 | f d0 | s0 d0 l0 | f d0 l0] eqn:Er;
      cbn [logged]; try discriminate.
    intros [= <- <- <-].
    destruct (IH _ _ _ _ _ Hk Er) as (Hc & pre & t' & rest & st1 & disk1 & log1 & i & saved
                                       & -> & Hpre & Hwin & Hkey & ->).
    split; [exact Hc|].
    exists (t :: pre), t', rest, st1, disk1, (NoWindow :: log1), i, saved.
    repeat split; auto.
    cbn [capture_loop]. rewrite E.
    destruct (Z.eqb_spec (keyCode st) 113) as [|_]; [contradiction|].
    now rewrite Hpre.
  - intros [= <- <- <-]. split; [reflexivity|].
    apply find_window_none_iff in Hw. cbn [keyCode] in Hk'.
    exists [], t, ticks, st, disk, [], (size_t (imageIndex st + 1)), (SaveCGImageToPNG t).
    repeat split; auto.
  - match type of Ec with
    | _ = logged ?e (capture_loop ?s ?d ticks) =>
        destruct (capture_loop s d ticks) as [c0 d0 l0 | f d0 | s0 d0 l0 | f d0 l0] eqn:Er
    end; cbn [logged]; try discriminate.
    intros [= <- <- <-].
    destruct (IH _ _ _ _ _ Hk' Er) as (Hc & pre & t' & rest & st1 & disk1 & log1 & i & saved
                                        & -> & Hpre & Hwin & Hkey & ->).
    split; [exact Hc|].
    exists (t :: pre), t', rest, st1, disk1,
      (Capture (size_t (imageIndex st + 1)) (SaveCGImageToPNG t) :: log1), i, saved.
    repeat split; auto.
    cbn [capture_loop]. rewrite E. cbn [keyCode] in Hk' |- *.
    destruct (Z.eqb_spec (key t) 113) as [|_]; [contradiction|].
    now rewrite Hpre.
Qed.

(** X16. The process returns from [main] only with status 0 and only
    straight after a capture at which key 113 was read: the run up to
    that iteration left the process in the loop, the target window was
    found in it, and the capture is the last entry of the log. *)
Theorem exit_only_after_capture (w : world) (ticks : list tick) (c : Z) (disk : dir)
        (log : list event) :
  main w ticks = Exited c disk log ->
  c = 0
  /\ exists pre t rest st1 disk1 log1 i saved,
       ticks = (pre ++ t :: rest)%list
       /\ main w pre = InLoop st1 disk1 log1
       /\ target_window_present (safariPID st1) (windows t)
       /\ key t = 113
       /\ log = (log1 ++ [Capture i saved])%list.
Proof.
  unfold main. destruct (startup w) as [disk0 st0 | f disk0] eqn:E; [|discriminate].
  apply capture_loop_exit. rewrite (startup_key _ _ _ E). discriminate.
Qed.

Lemma exit_only_after_capture_witness :
  0 = 0
  /\ exists pre t rest st1 disk1 log1 i saved,
       [idle_tick; sample_tick true 97; sample_tick false 113; idle_tick]
       = (pre ++ t :: rest)%list
       /\ main sample_world pre = InLoop st1 disk1 log1
       /\ target_window_present (safariPID st1) (windows t)
       /\ key t = 113
       /\ [NoWindow; Capture 3 true; Capture 4 false] = (log1 ++ [Capture i saved])%list.
Proof.
  apply (exit_only_after_capture sample_world
           [idle_tick; sample_tick true 97; sample_tick false 113; idle_tick] 0
           [("ver1", Directory [("1.png", File); ("2.png", File)]);
            ("ver2", Directory [("3.png", File)])]).
  reflexivity.
Defined.

(** ** Which directory the image index is read from *)

(** X17. The image index is read from the latest version directory
    alone: what any other version directory holds, images of higher index
    included, does not change the result. *)
Theorem older_directories_ignored (before after : dir) (d : string) (es es' : dir)
        (prefix latest : string) :
  findLastVersionDirectory (before ++ (d, Directory es) :: after)%list prefix
  = Returned latest ->
  d <> latest ->
  findLastImageIndex (before ++ (d, Directory es) :: after)%list prefix
  = findLastImageIndex (before ++ (d, Directory es') :: after)%list prefix.
Proof.
  intros Hl Hd. rewrite !findLastImageIndex_eq.
  assert (E : findLastVersionDirectory (before ++ (d, Directory es') :: after)%list prefix
              = Returned latest).
  { rewrite <- Hl. unfold findLastVersionDirectory.
    now rewrite !findLastVersionIndex_eq, !version_indices_app, !version_indices_cons. }
  rewrite Hl, E. cbn [bind]. unfold directory_iterator.
  rewrite !lookup_app. cbn [lookup].
  destruct (String.eqb_spec d latest) as [|_]; [contradiction | reflexivity].
Qed.

Lemma older_directories_ignored_witness :
  findLastImageIndex
    ([] ++ ("ver1", Directory [("100.png", File)]) :: [("ver2", Directory [("5.png", File)])])%list
    "ver"
  = findLastImageIndex
      ([] ++ ("ver1", Directory []) :: [("ver2", Directory [("5.png", File)])])%list
      "ver".
Proof.
  apply (older_directories_ignored [] [("ver2", Directory [("5.png", File)])] "ver1"
           [("100.png", File)] [] "ver" "ver2" eq_refl).
  discriminate.
Defined.

(** ** A screenshot that is [NULL] *)


